(** * CounterSession: a resumable server-sent counter stream

    Shallow embedding of [src/index.js]: the [CounterSession] Durable Object
    ([fetch], [startCounting], the interval callback, [stopCounting]) together
    with the part of the host it talks to (the durable storage cell under the
    key "counter", the interval timers, the abort listeners and the stream
    controllers).

    Modelling conventions.
    - One operation of the object (a request, an abort handler, one firing of
      the interval timer) runs to completion before the next one starts: the
      host serialises the events of one object, and its storage calls do not
      let other events in.
    - [storage.put] may reject; whether it does is decided by the environment
      and given to each firing of the timer as [put_ok : bool].  A rejected
      put ends the callback there, as the rejected [await] does.
    - [controller.enqueue] throws once the stream is no longer readable.  For
      the streams of the subscribers the environment decides, firing by
      firing, which are still readable ([accept : client -> bool]); the
      stream that [fetch] has just created is readable.
    - The counter is a JavaScript Number that the program starts at 0 and
      only ever increments: a non-negative integer of at most 2^53, where
      [++] stops changing it.  [Number] is the type of these values.
    - Every externally visible call is recorded, in program order, in a trace
      of [Event]s. *)

From Stdlib Require Import List NArith PeanoNat Bool String Ascii Lia.
From Stdlib Require Import DecimalString DecimalPos DecimalN Sorted Eqdep_dec.
From Stdlib Require Strings.Byte.
Import ListNotations.

Local Open Scope string_scope.
Local Open Scope list_scope.
Local Open Scope nat_scope.

(** ** Values *)

(** A client is the object [{ controller }] created by one [/events] request;
    objects are compared by identity, modelled by an allocation index. *)
Definition client := nat.

(** Handle returned by [setInterval]: a positive integer. *)
Definition timer_id := nat.

Definition LF : string := String (ascii_of_nat 10) EmptyString.

(** 2^53: the first integer [n] whose successor is not a Number of its own,
    [n + 1] being rounded back to [n]. *)
Definition LIMIT : N := 9007199254740992.

(** The Numbers the counter ranges over: the integers from 0 to 2^53, all of
    them exact as doubles and printed in plain decimal digits. *)
Record Number := mkNumber {
  value : N;
  value_safe : (value <=? LIMIT)%N = true
}.

(** The literal [0]. *)
Definition Number_zero : Number := mkNumber 0 eq_refl.

(** The Number of an integer of at most 2^53 (2^53 itself for a larger one). *)
Definition Number_of_N (n : N) : Number :=
  match (n <=? LIMIT)%N as b return ((n <=? LIMIT)%N = b -> Number) with
  | true => fun H => mkNumber n H
  | false => fun _ => mkNumber LIMIT eq_refl
  end eq_refl.

(** [x + 1] on these Numbers: exact below 2^53; 2^53 + 1 is not a double and
    rounds to 2^53. *)
Definition Number_succ (x : Number) : Number :=
  match (value x + 1 <=? LIMIT)%N as b
        return ((value x + 1 <=? LIMIT)%N = b -> Number) with
  | true => fun H => mkNumber (value x + 1) H
  | false => fun _ => x
  end eq_refl.

(** [`${n}`] for such a Number: its decimal digits. *)
Definition number_to_string (n : Number) : string :=
  NilZero.string_of_uint (N.to_uint (value n)).

(** [`${this.counter}`]: [null] prints as "null". *)
Definition template_of_counter (c : option Number) : string :=
  match c with
  | Some n => number_to_string n
  | None => "null"
  end.

(** [new TextEncoder().encode(s)] on ASCII text. *)
Definition TextEncoder_encode (s : string) : list Byte.byte :=
  list_byte_of_string s.

(** [encoder.encode(`data: ${this.counter}\n\n`)] *)
Definition sse_data (c : option Number) : list Byte.byte :=
  TextEncoder_encode ("data: " ++ template_of_counter c ++ LF ++ LF)%string.

(** The wire record [data: <n>\n\n] of the counter value [n]. *)
Definition sse_record (n : Number) : list Byte.byte := sse_data (Some n).

Arguments sse_data : simpl never.
Arguments sse_record : simpl never.

(** [v || 0] where [v] is [undefined] or a Number. *)
Definition or_zero (v : option Number) : Number :=
  match v with
  | Some n => if (value n =? 0)%N then Number_zero else n
  | None => Number_zero
  end.

(** Operand of [this.counter++]: [ToNumber(null)] is 0. *)
Definition to_number (c : option Number) : Number :=
  match c with
  | Some n => n
  | None => Number_zero
  end.

(** Truthiness of [this.intervalId]: [null] and 0 are falsy. *)
Definition truthy (h : option timer_id) : bool :=
  match h with
  | Some i => negb (i =? 0)
  | None => false
  end.

(** ** Responses *)

Inductive Body :=
| BodyPage                      (* the HTML page shell *)
| BodyStream (c : client)       (* the ReadableStream of client [c] *)
| BodyText (s : string).

Record Response := mkResponse {
  status : nat;
  headers : list (string * string);
  body : Body
}.

Definition page_response : Response :=
  mkResponse 200 [("Content-Type", "text/html")] BodyPage.

Definition stream_response (c : client) : Response :=
  mkResponse 200
    [("Content-Type", "text/event-stream"); ("Cache-Control", "no-cache");
     ("Connection", "keep-alive")]
    (BodyStream c).

Definition not_found_response : Response :=
  mkResponse 404 [] (BodyText "Not found").

(** ** The object and its host *)

Record World := mkWorld {
  (* fields of the CounterSession object *)
  counter : option Number;       (* this.counter, null until loaded *)
  clients : list client;         (* this.clients, a Set in insertion order *)
  intervalId : option timer_id;  (* this.intervalId *)
  (* the host *)
  storage : option Number;       (* durable entry under the key "counter" *)
  timers : list timer_id;        (* interval timers that are live *)
  next_timer : timer_id;         (* next handle setInterval hands out *)
  next_client : client;          (* next object identity *)
  listeners : list client        (* requests with a pending abort listener *)
}.

(** [new CounterSession(state, env)] over a store holding [stored]. *)
Definition constructor (stored : option Number) : World :=
  mkWorld None [] None stored [] 1 0 [].

Definition set_counter (v : option Number) (w : World) : World :=
  mkWorld v (clients w) (intervalId w) (storage w) (timers w)
    (next_timer w) (next_client w) (listeners w).

Definition set_clients (v : list client) (w : World) : World :=
  mkWorld (counter w) v (intervalId w) (storage w) (timers w)
    (next_timer w) (next_client w) (listeners w).

Definition set_intervalId (v : option timer_id) (w : World) : World :=
  mkWorld (counter w) (clients w) v (storage w) (timers w)
    (next_timer w) (next_client w) (listeners w).

Definition set_storage (v : option Number) (w : World) : World :=
  mkWorld (counter w) (clients w) (intervalId w) v (timers w)
    (next_timer w) (next_client w) (listeners w).

Definition set_timers (v : list timer_id) (n : timer_id) (w : World) : World :=
  mkWorld (counter w) (clients w) (intervalId w) (storage w) v
    n (next_client w) (listeners w).

Definition set_next_client (v : client) (w : World) : World :=
  mkWorld (counter w) (clients w) (intervalId w) (storage w) (timers w)
    (next_timer w) v (listeners w).

Definition set_listeners (v : list client) (w : World) : World :=
  mkWorld (counter w) (clients w) (intervalId w) (storage w) (timers w)
    (next_timer w) (next_client w) v.

(** ** Observable events *)

Inductive Event :=
| EvGet                                   (* storage.get("counter") *)
| EvPut (v : Number)                      (* storage.put("counter", v) done *)
| EvPutRejected (v : Number)              (* storage.put("counter", v) rejected *)
| EvEnqueue (c : client) (data : list Byte.byte) (accepted : bool)
| EvSetInterval (i : timer_id) (ms : nat)
| EvClearInterval (i : timer_id)
| EvListen (c : client)                   (* addEventListener('abort', ..) *)
| EvConsoleError (c : client).

Definition Trace := list Event.

(** ** A state, trace and exception monad *)

Inductive Completion (A : Type) :=
| Normal (a : A)
| Throw.
Arguments Normal {A} a.
Arguments Throw {A}.

Definition M (A : Type) : Type := World -> Completion A * World * Trace.

Definition ret {A} (a : A) : M A := fun w => (Normal a, w, []).

Definition bind {A B} (m : M A) (k : A -> M B) : M B :=
  fun w =>
    match m w with
    | (Normal a, w1, t1) =>
        match k a w1 with
        | (r, w2, t2) => (r, w2, t1 ++ t2)
        end
    | (Throw, w1, t1) => (Throw, w1, t1)
    end.

(** [try { m } catch (error) { h }] *)
Definition try_catch {A} (m : M A) (h : M A) : M A :=
  fun w =>
    match m w with
    | (Normal a, w1, t1) => (Normal a, w1, t1)
    | (Throw, w1, t1) =>
        match h w1 with
        | (r, w2, t2) => (r, w2, t1 ++ t2)
        end
    end.

Definition read {A} (f : World -> A) : M A := fun w => (Normal (f w), w, []).

Definition write (f : World -> World) : M unit := fun w => (Normal tt, f w, []).

Definition emit (e : Event) : M unit := fun w => (Normal tt, w, [e]).

(** A thrown exception or a rejected [await]. *)
Definition throw {A} : M A := fun w => (Throw, w, []).

Declare Scope js_scope.
Delimit Scope js_scope with js.
Notation "x <- m ;; k" := (bind m (fun x => k))
  (at level 61, m at next level, right associativity) : js_scope.
Notation "m ;; k" := (bind m (fun _ => k))
  (at level 61, right associativity) : js_scope.
Local Open Scope js_scope.

(** [for (const x of xs) { body }], over the elements present when the loop
    starts.  The only mutation of the Set inside the loop of this program
    deletes the element being visited, which leaves the elements still to be
    visited untouched. *)
Fixpoint for_of (xs : list client) (body : client -> M unit) : M unit :=
  match xs with
  | [] => ret tt
  | x :: rest => body x ;; for_of rest body
  end.

(** ** Host calls *)

Definition storage_get : M (option Number) :=
  emit EvGet ;; read storage.

(** [await this.state.storage.put("counter", v)]: the store is written and
    the call returns, or the put is rejected and the store is left as it
    was. *)
Definition storage_put (put_ok : bool) (v : Number) : M unit :=
  if put_ok then write (set_storage (Some v)) ;; emit (EvPut v)
  else emit (EvPutRejected v) ;; throw.

(** [controller.enqueue(data)] on the stream of [c]: it throws when the
    stream is not readable any more. *)
Definition controller_enqueue (readable : bool) (c : client)
    (data : list Byte.byte) : M unit :=
  fun w => (if readable then Normal tt else Throw, w,
            [EvEnqueue c data readable]).

Definition setInterval (ms : nat) : M timer_id :=
  i <- read next_timer ;;
  ts <- read timers ;;
  write (set_timers (ts ++ [i]) (S i)) ;;
  emit (EvSetInterval i ms) ;;
  ret i.

Definition clearInterval (h : option timer_id) : M unit :=
  match h with
  | Some i =>
      ts <- read timers ;;
      n <- read next_timer ;;
      write (set_timers (filter (fun j => negb (j =? i)) ts) n) ;;
      emit (EvClearInterval i)
  | None => ret tt
  end.

Definition console_error (c : client) : M unit := emit (EvConsoleError c).

(** [client = { controller }] over a fresh stream: a new object identity. *)
Definition new_client : M client :=
  c <- read next_client ;;
  write (set_next_client (S c)) ;;
  ret c.

(** [request.signal.addEventListener('abort', ...)] *)
Definition add_abort_listener (c : client) : M unit :=
  ls <- read listeners ;;
  write (set_listeners (ls ++ [c])) ;;
  emit (EvListen c).

(** ** Set operations on [this.clients] *)

Definition Set_add (c : client) (s : list client) : list client :=
  if existsb (Nat.eqb c) s then s else s ++ [c].

Definition Set_delete (c : client) (s : list client) : list client :=
  filter (fun x => negb (x =? c)) s.

Definition clients_add (c : client) : M unit :=
  s <- read clients ;; write (set_clients (Set_add c s)).

Definition clients_delete (c : client) : M unit :=
  s <- read clients ;; write (set_clients (Set_delete c s)).

Definition clients_size : M nat := read (fun w => List.length (clients w)).

(** ** The methods of CounterSession *)

(** [stopCounting()] *)
Definition stopCounting : M unit :=
  h <- read intervalId ;;
  if truthy h then
    clearInterval h ;;
    write (set_intervalId None)
  else ret tt.

(** The callback given to [setInterval]: one tick.  [accept] tells which
    subscribers' streams are still readable. *)
Definition interval_callback (accept : client -> bool) (put_ok : bool)
    : M unit :=
  c <- read counter ;;
  write (set_counter (Some (Number_succ (to_number c)))) ;;
  c1 <- read counter ;;
  storage_put put_ok (to_number c1) ;;
  c2 <- read counter ;;
  let data := sse_data c2 in
  cs <- read clients ;;
  for_of cs (fun client =>
    try_catch (controller_enqueue (accept client) client data)
              (console_error client ;; clients_delete client)) ;;
  n <- clients_size ;;
  if n =? 0 then stopCounting else ret tt.

(** [startCounting()] *)
Definition startCounting : M unit :=
  h <- read intervalId ;;
  if truthy h then ret tt
  else
    i <- setInterval 1000 ;;
    write (set_intervalId (Some i)).

(** The abort listener registered by [fetch] for [client]. *)
Definition on_abort (c : client) : M unit :=
  clients_delete c ;;
  n <- clients_size ;;
  if n =? 0 then stopCounting else ret tt.

(** [fetch(request)], where [path] is [new URL(request.url).pathname].  The
    stream the catch-up enqueue writes to was created a few lines above, in
    the same synchronous stretch, and is readable. *)
Definition fetch (path : string) : M Response :=
  if (path =? "/")%string || (path =? "")%string then ret page_response
  else if (path =? "/events")%string then
    c <- read counter ;;
    match c with
    | None =>
        v <- storage_get ;;
        write (set_counter (Some (or_zero v)))
    | Some _ => ret tt
    end ;;
    client <- new_client ;;
    clients_add client ;;
    n <- clients_size ;;
    (if n =? 1 then startCounting
     else
       c1 <- read counter ;;
       controller_enqueue true client (sse_data c1)) ;;
    add_abort_listener client ;;
    ret (stream_response client)
  else ret not_found_response.

(** ** Events delivered by the host *)

Inductive Op :=
| OpFetch (path : string)
| OpAbort (c : client)
| OpTimer (i : timer_id) (accept : client -> bool) (put_ok : bool).

Definition outcome {A} (r : Completion A * World * Trace) : World * Trace :=
  (snd (fst r), snd r).

(** An abort signal fires once, and only runs a listener that was added; a
    cleared timer does not fire. *)
Definition step (op : Op) (w : World) : World * Trace :=
  match op with
  | OpFetch path => outcome (fetch path w)
  | OpAbort c =>
      if existsb (Nat.eqb c) (listeners w) then
        outcome (on_abort c (set_listeners (Set_delete c (listeners w)) w))
      else (w, [])
  | OpTimer i accept put_ok =>
      if existsb (Nat.eqb i) (timers w) then
        outcome (interval_callback accept put_ok w)
      else (w, [])
  end.

Fixpoint run (ops : list Op) (w : World) : World * Trace :=
  match ops with
  | [] => (w, [])
  | op :: rest =>
      let (w1, t1) := step op w in
      let (w2, t2) := run rest w1 in
      (w2, t1 ++ t2)
  end.

Definition accept_all : client -> bool := fun _ => true.

(** ** Derived notions used by the statements *)

(** The value the durable store reflects: an absent entry reads as 0. *)
Definition durable (w : World) : Number := or_zero (storage w).

(** The tick loop is Running: the object holds a handle of a live timer. *)
Definition running (w : World) : bool :=
  match intervalId w with
  | Some i => truthy (Some i) && existsb (Nat.eqb i) (timers w)
  | None => false
  end.

(** [l.size === 0] *)
Definition is_empty {A} (l : list A) : bool :=
  match l with
  | [] => true
  | _ :: _ => false
  end.

(** Clients left in the Set after the broadcast loop has visited [cs]. *)
Definition survivors (accept : client -> bool) (cs cl : list client)
    : list client :=
  fold_left (fun acc x => if accept x then acc else Set_delete x acc) cs cl.

(** Calls made by the broadcast loop over [cs]. *)
Definition broadcast_trace (accept : client -> bool) (data : list Byte.byte)
    (cs : list client) : Trace :=
  flat_map (fun c => EvEnqueue c data (accept c)
                       :: (if accept c then [] else [EvConsoleError c])) cs.

(** Records accepted by the channel of client [c], in order. *)
Fixpoint delivered (c : client) (t : Trace) : list (list Byte.byte) :=
  match t with
  | [] => []
  | EvEnqueue c' data true :: rest =>
      if c' =? c then data :: delivered c rest else delivered c rest
  | _ :: rest => delivered c rest
  end.

(** Enqueue calls made on the channel of client [c] (accepted or not). *)
Fixpoint enqueued (c : client) (t : Trace) : list (list Byte.byte) :=
  match t with
  | [] => []
  | EvEnqueue c' data _ :: rest =>
      if c' =? c then data :: enqueued c rest else enqueued c rest
  | _ :: rest => enqueued c rest
  end.

(** Number of [storage.get] calls in a trace. *)
Fixpoint reads (t : Trace) : nat :=
  match t with
  | [] => 0
  | EvGet :: rest => S (reads rest)
  | _ :: rest => reads rest
  end.

(** The store after the puts of a trace, starting from [s]. *)
Fixpoint replay (s : option Number) (t : Trace) : option Number :=
  match t with
  | [] => s
  | EvPut v :: rest => replay (Some v) rest
  | _ :: rest => replay s rest
  end.

(** The result [r] of a computation that ran after the calls of [t]. *)
Definition prepend {A} (t : Trace) (r : Completion A * World * Trace)
    : Completion A * World * Trace :=
  match r with
  | (c, w, t2) => (c, w, t ++ t2)
  end.

(** [this.counter] after the lazy load of [fetch], from counter [c] and
    store [s]. *)
Definition loaded (c s : option Number) : option Number :=
  match c with
  | None => Some (or_zero s)
  | Some _ => c
  end.

(** Host calls of the lazy load. *)
Definition load_trace (c : option Number) : Trace :=
  match c with
  | None => [EvGet]
  | Some _ => []
  end.

(** What holds of every world reachable from [constructor]: handles are
    positive and below the next one, the live timers are exactly the one the
    object holds, a timer is held exactly when there are subscribers, the
    counter is loaded once there are subscribers and is then at least the
    value the store reflects, and the subscribers are distinct objects that
    have been allocated. *)
Record Inv (w : World) : Prop := mkInv {
  inv_next : 1 <= next_timer w;
  inv_timers :
    timers w = match intervalId w with Some i => [i] | None => [] end;
  inv_handle : forall i, intervalId w = Some i -> 1 <= i < next_timer w;
  inv_running : clients w = [] <-> intervalId w = None;
  inv_loaded : clients w <> [] -> counter w <> None;
  inv_durable :
    forall n, counter w = Some n -> (value (durable w) <= value n)%N;
  inv_alloc : Forall (fun c => c < next_client w) (clients w);
  inv_nodup : NoDup (clients w)
}.

(** Events that touch neither the store nor a channel. *)
Definition quiet_event (e : Event) : bool :=
  match e with
  | EvGet | EvPut _ | EvPutRejected _ | EvEnqueue _ _ _ => false
  | _ => true
  end.

(** A trace of such events only. *)
Definition quiet (t : Trace) : bool := forallb quiet_event t.

(** Loads still to come: one while [this.counter] is [null], none after. *)
Definition pending_load (w : World) : nat :=
  match counter w with
  | None => 1
  | Some _ => 0
  end.

(** Every enqueue of the trace carries the record of the value that the
    store reflects at that point of the trace, starting from store [s]. *)
Fixpoint committed (s : option Number) (t : Trace) : Prop :=
  match t with
  | [] => True
  | EvPut v :: rest => committed (Some v) rest
  | EvEnqueue _ data _ :: rest =>
      data = sse_record (or_zero s) /\ committed s rest
  | _ :: rest => committed s rest
  end.

(** The operation is a firing of the interval timer. *)
Definition is_timer (op : Op) : bool :=
  match op with
  | OpTimer _ _ _ => true
  | _ => false
  end.

(** What a later record for client [c] must exceed: a client that already
    exists only hears from ticks, which carry more than the current counter;
    a client still to be created may first be sent the counter itself. *)
Definition above (w : World) (c : client) (v : Number) : Prop :=
  if c <? next_client w then (value (to_number (counter w)) < value v)%N
  else (value (to_number (counter w)) <= value v)%N.

(** The in-memory counter is the value the store reflects. *)
Definition synced (w : World) : Prop :=
  forall n, counter w = Some n -> durable w = n.

(** No firing of the timer among [ops] has its put rejected. *)
Definition puts_ok (ops : list Op) : bool :=
  forallb (fun op => match op with
                     | OpTimer _ _ ok => ok
                     | _ => true
                     end) ops.


(** ** The worker entry point *)

(** The default export of [src/index.js]: it answers the bare root with a
    redirect to a new session and forwards every other request to the
    CounterSession object named by the first path segment, with the rest of
    the path as the new pathname.  [uuid] is what [crypto.randomUUID()]
    returns and [origin] is [url.origin]; the object reads back the pathname
    the worker has assigned. *)
Module Worker.

(** [s.split('/')] *)
Fixpoint split (s : string) : list string :=
  match s with
  | EmptyString => [EmptyString]
  | String c rest =>
      if Ascii.eqb c "/" then EmptyString :: split rest
      else
        match split rest with
        | seg :: segs => String c seg :: segs
        | [] => [String c EmptyString]
        end
  end.

(** [path.split('/').filter(p => p)]: the empty string is falsy. *)
Definition parts (path : string) : list string :=
  filter (fun p => negb (p =? "")%string) (split path).

(** [parts.length > 1 ? `/${parts.slice(1).join('/')}` : '/'] *)
Definition newPath (ps : list string) : string :=
  if 1 <? List.length ps then ("/" ++ String.concat "/" (tl ps))%string
  else "/".

(** A letter of a URL scheme. *)
Definition is_alpha (c : ascii) : bool :=
  let n := nat_of_ascii c in
  ((65 <=? n) && (n <=? 90)) || ((97 <=? n) && (n <=? 122)).

(** A character allowed after the first letter of a URL scheme. *)
Definition is_scheme_char (c : ascii) : bool :=
  let n := nat_of_ascii c in
  is_alpha c || ((48 <=? n) && (n <=? 57))
  || (n =? 43) || (n =? 45) || (n =? 46).

(** The rest of a scheme: allowed characters up to a colon. *)
Fixpoint scheme_rest (s : string) : bool :=
  match s with
  | EmptyString => false
  | String c rest =>
      (nat_of_ascii c =? 58) || (is_scheme_char c && scheme_rest rest)
  end.

(** The string starts with a URL scheme and its colon.  A string that does
    not cannot be parsed as a URL on its own. *)
Definition has_scheme (s : string) : bool :=
  match s with
  | EmptyString => false
  | String c rest => is_alpha c && scheme_rest rest
  end.

(** [Response.redirect(url, 302)]: the URL is parsed first, and the call
    throws when it does not parse, as ["null/..."], the text built from the
    origin of a URL with an opaque origin, does not.  The other texts the
    worker builds are an http(s) origin followed by a slash and the UUID;
    they parse to themselves.  The response has no body. *)
Definition Response_redirect (url : string) (code : nat)
    : Completion Response :=
  if has_scheme url then
    Normal (mkResponse code [("Location", url)] (BodyText ""))
  else Throw.

(** What [fetch] returns: the result of its own redirect, or what
    [obj.fetch] returned for the object of name [id] ([undefined] when there
    is no first segment). *)
Inductive Routed :=
| Redirected (r : Completion Response)
| Forwarded (id : option string) (sub : string)
    (r : Completion Response * World * Trace).

(** [fetch(request, env, ctx)], where [path] is the pathname of the request
    and [obj id] is the world of the object
    [env.COUNTER_SESSION.get(env.COUNTER_SESSION.idFromName(id))]. *)
Definition fetch (uuid origin : string) (obj : option string -> World)
    (path : string) : Routed :=
  if (path =? "/")%string || (path =? "")%string then
    Redirected (Response_redirect (origin ++ "/" ++ uuid)%string 302)
  else
    let ps := parts path in
    let id := hd_error ps in
    Forwarded id (newPath ps) (fetch (newPath ps) (obj id)).

End Worker.

(** ** Notions used by the further properties *)

(** The string contains a [/]. *)
Fixpoint has_slash (s : string) : bool :=
  match s with
  | EmptyString => false
  | String c rest => Ascii.eqb c "/" || has_slash rest
  end.

(** The string consists of [/] only. *)
Fixpoint only_slashes (s : string) : bool :=
  match s with
  | EmptyString => true
  | String c rest => Ascii.eqb c "/" && only_slashes rest
  end.

(** A path segment: not empty and without [/]. *)
Definition is_segment (s : string) : bool :=
  negb (s =? "")%string && negb (has_slash s).

(** Number of [storage.put] calls in a trace, completed or rejected. *)
Fixpoint put_calls (t : Trace) : nat :=
  match t with
  | [] => 0
  | EvPut _ :: rest => S (put_calls rest)
  | EvPutRejected _ :: rest => S (put_calls rest)
  | _ :: rest => put_calls rest
  end.

(** Clients on whose controller a trace calls [enqueue], in order. *)
Fixpoint enqueue_targets (t : Trace) : list client :=
  match t with
  | [] => []
  | EvEnqueue c _ _ :: rest => c :: enqueue_targets rest
  | _ :: rest => enqueue_targets rest
  end.

(** The operation is a request on [/events]. *)
Definition is_attach (op : Op) : bool :=
  match op with
  | OpFetch path => (path =? "/events")%string
  | _ => false
  end.

(** The characters of a string. *)
Fixpoint chars (s : string) : list ascii :=
  match s with
  | EmptyString => []
  | String c rest => c :: chars rest
  end.

(** A decimal digit. *)
Definition is_digit (c : ascii) : bool :=
  (48 <=? nat_of_ascii c) && (nat_of_ascii c <=? 57).

(** A firing of timer [i]: which streams are readable, and whether the put
    completes. *)
Definition firing (i : timer_id) (f : (client -> bool) * bool) : Op :=
  OpTimer i (fst f) (snd f).

(** The records of consecutive firings from counter value [n], one for each
    firing whose put completes. *)
Fixpoint firing_records (n : N) (oks : list bool) : list (list Byte.byte) :=
  match oks with
  | [] => []
  | ok :: rest =>
      (if ok then [sse_record (Number_of_N (n + 1))] else [])
        ++ firing_records (n + 1) rest
  end.

(** The value the counter holds, or will hold once loaded. *)
Definition current (w : World) : Number :=
  to_number (loaded (counter w) (storage w)).



(** * Properties *)

(** ** Numbers *)

Lemma Number_ext (a b : Number) : value a = value b -> a = b.
Proof.
  destruct a as [x Hx], b as [y Hy]. cbn. intros ->. f_equal.
  apply UIP_dec, Bool.bool_dec.
Qed.

Lemma value_le_LIMIT (a : Number) : (value a <= LIMIT)%N.
Proof. apply N.leb_le, value_safe. Qed.

Lemma value_succ (a : Number) :
  value (Number_succ a)
  = if (value a <? LIMIT)%N then (value a + 1)%N else value a.
Proof.
  unfold Number_succ.
  assert (H : forall b (E : (value a + 1 <=? LIMIT)%N = b),
            value (match b as b0
                         return ((value a + 1 <=? LIMIT)%N = b0 -> Number)
                   with
                   | true => fun H => mkNumber (value a + 1) H
                   | false => fun _ => a
                   end E)
            = if b then (value a + 1)%N else value a)
    by (intros [] E; reflexivity).
  rewrite H. clear H.
  destruct (value a + 1 <=? LIMIT)%N eqn:E1;
    destruct (value a <? LIMIT)%N eqn:E2; try reflexivity.
  - apply N.leb_le in E1. apply N.ltb_ge in E2. lia.
  - apply N.leb_gt in E1. apply N.ltb_lt in E2. lia.
Qed.

Lemma value_succ_below (a : Number) :
  (value a < LIMIT)%N -> value (Number_succ a) = (value a + 1)%N.
Proof. intros H. rewrite value_succ. apply N.ltb_lt in H. now rewrite H. Qed.

Lemma value_succ_le (a : Number) : (value a <= value (Number_succ a))%N.
Proof. rewrite value_succ. destruct (value a <? LIMIT)%N; lia. Qed.

Lemma value_of_N (n : N) : (n <= LIMIT)%N -> value (Number_of_N n) = n.
Proof.
  intros Hn. unfold Number_of_N.
  assert (H : forall b (E : (n <=? LIMIT)%N = b),
            value (match b as b0 return ((n <=? LIMIT)%N = b0 -> Number) with
                   | true => fun H => mkNumber n H
                   | false => fun _ => mkNumber LIMIT eq_refl
                   end E)
            = if b then n else LIMIT)
    by (intros [] E; reflexivity).
  rewrite H. clear H. apply N.leb_le in Hn. now rewrite Hn.
Qed.

Lemma or_zero_some n : or_zero (Some n) = n.
Proof.
  cbn. destruct (N.eqb_spec (value n) 0) as [E|E]; [|reflexivity].
  apply Number_ext. now rewrite E.
Qed.

(** ** The broadcast loop and the methods in closed form *)

Lemma filter_twice {A} (p q : A -> bool) (l : list A) :
  filter p (filter q l) = filter (fun a => q a && p a) l.
Proof.
  induction l as [|a l IH]; simpl; [reflexivity|].
  destruct (q a); simpl; [destruct (p a)|]; now rewrite IH.
Qed.

Lemma filter_all {A} (l : list A) : filter (fun _ => true) l = l.
Proof. induction l; simpl; now f_equal. Qed.

Lemma survivors_filter accept cs : forall cl,
  survivors accept cs cl =
  filter (fun c => negb (existsb (fun d => (d =? c) && negb (accept d)) cs)) cl.
Proof.
  induction cs as [|x cs IH]; intros cl.
  - simpl. now rewrite filter_all.
  - change (survivors accept (x :: cs) cl)
      with (survivors accept cs (if accept x then cl else Set_delete x cl)).
    rewrite IH. destruct (accept x) eqn:Hx.
    + apply filter_ext. intros c. simpl. now rewrite Hx, andb_false_r.
    + unfold Set_delete. rewrite filter_twice. apply filter_ext. intros c.
      simpl. rewrite Hx, andb_true_r, (Nat.eqb_sym x c).
      now rewrite negb_orb.
Qed.

Lemma survivors_self accept cl : survivors accept cl cl = filter accept cl.
Proof.
  rewrite survivors_filter. apply filter_ext_in. intros c Hc.
  destruct (accept c) eqn:Hc'.
  - apply negb_true_iff, not_true_iff_false. intros H.
    apply existsb_exists in H as (d & _ & Hd).
    apply andb_true_iff in Hd as [Hd1 Hd2]. apply Nat.eqb_eq in Hd1. subst d.
    now rewrite Hc' in Hd2.
  - apply negb_false_iff, existsb_exists. exists c. split; [exact Hc|].
    now rewrite Nat.eqb_refl, Hc'.
Qed.

Lemma deliver_one accept data x c cl h s ts nt nc ls :
  try_catch (controller_enqueue (accept x) x data)
            (console_error x ;; clients_delete x)
    (mkWorld c cl h s ts nt nc ls)
  = (Normal tt,
     mkWorld c (if accept x then cl else Set_delete x cl) h s ts nt nc ls,
     EvEnqueue x data (accept x)
       :: (if accept x then [] else [EvConsoleError x])).
Proof.
  unfold try_catch, controller_enqueue. now destruct (accept x).
Qed.

Lemma broadcast_loop accept data cs : forall c cl h s ts nt nc ls,
  for_of cs (fun client =>
    try_catch (controller_enqueue (accept client) client data)
              (console_error client ;; clients_delete client))
    (mkWorld c cl h s ts nt nc ls)
  = (Normal tt, mkWorld c (survivors accept cs cl) h s ts nt nc ls,
     broadcast_trace accept data cs).
Proof.
  induction cs as [|x cs IH]; intros; [reflexivity|].
  cbn [for_of]. unfold bind at 1. rewrite deliver_one, IH. reflexivity.
Qed.

(** ** Equations of the monad *)

Lemma bind_ret {A B} (a : A) (k : A -> M B) w : bind (ret a) k w = k a w.
Proof. unfold bind, ret. now destruct (k a w) as [[r w2] t2]. Qed.

Lemma bind_read {A B} (f : World -> A) (k : A -> M B) w :
  bind (read f) k w = k (f w) w.
Proof. unfold bind, read. now destruct (k (f w) w) as [[r w2] t2]. Qed.

Lemma bind_write {B} (f : World -> World) (k : unit -> M B) w :
  bind (write f) k w = k tt (f w).
Proof. unfold bind, write. now destruct (k tt (f w)) as [[r w2] t2]. Qed.

Lemma bind_emit {B} (e : Event) (k : unit -> M B) w :
  bind (emit e) k w = prepend [e] (k tt w).
Proof. reflexivity. Qed.

Lemma bind_throw {A B} (k : A -> M B) w : bind throw k w = (Throw, w, []).
Proof. reflexivity. Qed.

Lemma bind_normal {A B} (m : M A) (k : A -> M B) w a w1 t1 :
  m w = (Normal a, w1, t1) -> bind m k w = prepend t1 (k a w1).
Proof. intros H. unfold bind. now rewrite H. Qed.

Lemma bind_assoc {A B C} (m : M A) (f : A -> M B) (g : B -> M C) w :
  bind (bind m f) g w = bind m (fun x => bind (f x) g) w.
Proof.
  unfold bind. destruct (m w) as [[[a|] w1] t1]; [|reflexivity].
  destruct (f a w1) as [[[b|] w2] t2]; [|reflexivity].
  destruct (g b w2) as [[r w3] t3]. now rewrite app_assoc.
Qed.

Ltac js_step :=
  first [ rewrite bind_assoc | rewrite bind_ret | rewrite bind_read
        | rewrite bind_write | rewrite bind_emit ].

Ltac js_fields :=
  unfold set_counter, set_clients, set_intervalId, set_storage, set_timers,
    set_next_client, set_listeners;
  cbn [counter clients intervalId storage timers next_timer next_client
       listeners fst snd to_number].

Ltac js_simpl := repeat (js_step; js_fields).

(** Case analysis on every condition the goal branches on. *)
Ltac case_ifs :=
  repeat match goal with
         | |- context [if ?b then _ else _] => destruct b
         end.

Lemma stopCounting_eq c cl h s ts nt nc ls :
  stopCounting (mkWorld c cl h s ts nt nc ls) =
  match h with
  | Some (S i) =>
      (Normal tt,
       mkWorld c cl None s (filter (fun j => negb (j =? S i)) ts) nt nc ls,
       [EvClearInterval (S i)])
  | _ => (Normal tt, mkWorld c cl h s ts nt nc ls, [])
  end.
Proof. now destruct h as [[|i]|]. Qed.

Lemma startCounting_eq c cl h s ts nt nc ls :
  startCounting (mkWorld c cl h s ts nt nc ls) =
  if truthy h then (Normal tt, mkWorld c cl h s ts nt nc ls, [])
  else (Normal tt, mkWorld c cl (Some nt) s (ts ++ [nt]) (S nt) nc ls,
        [EvSetInterval nt 1000]).
Proof. now destruct h as [[|i]|]. Qed.

Lemma interval_callback_eq accept c cl h s ts nt nc ls :
  interval_callback accept true (mkWorld c cl h s ts nt nc ls) =
  let n := Number_succ (to_number c) in
  let w1 := mkWorld (Some n) (filter accept cl) h (Some n) ts nt nc ls in
  let t1 := EvPut n :: broadcast_trace accept (sse_record n) cl in
  if is_empty (filter accept cl) then prepend t1 (stopCounting w1)
  else (Normal tt, w1, t1).
Proof.
  unfold interval_callback, storage_put, clients_size.
  js_simpl.
  rewrite (bind_normal _ _ _ _ _ _ (broadcast_loop _ _ _ _ _ _ _ _ _ _ _)).
  rewrite survivors_self. js_simpl.
  destruct (filter accept cl) as [|x l] eqn:Hf; cbn [List.length Nat.eqb is_empty].
  - now destruct (stopCounting _) as [[r w2] t2].
  - unfold ret, prepend, sse_record. now rewrite app_nil_r.
Qed.

(** A tick whose put is rejected: the counter has been incremented and the
    callback ends at the rejected [await]. *)
Lemma interval_callback_rejected accept c cl h s ts nt nc ls :
  interval_callback accept false (mkWorld c cl h s ts nt nc ls) =
  (Throw, mkWorld (Some (Number_succ (to_number c))) cl h s ts nt nc ls,
   [EvPutRejected (Number_succ (to_number c))]).
Proof. reflexivity. Qed.

Lemma on_abort_eq x c cl h s ts nt nc ls :
  on_abort x (mkWorld c cl h s ts nt nc ls) =
  if is_empty (Set_delete x cl) then
    stopCounting (mkWorld c (Set_delete x cl) h s ts nt nc ls)
  else (Normal tt, mkWorld c (Set_delete x cl) h s ts nt nc ls, []).
Proof.
  unfold on_abort, clients_delete, clients_size. js_simpl.
  now destruct (Set_delete x cl).
Qed.

(** [fetch] on [/events], case by case: the lazy load, the Set after [add],
    then either [startCounting] or the catch-up enqueue. *)
Lemma fetch_events_eq c cl h s ts nt nc ls :
  fetch "/events" (mkWorld c cl h s ts nt nc ls) =
  let c1 := loaded c s in
  let cl1 := Set_add nc cl in
  if List.length cl1 =? 1 then
    if truthy h then
      (Normal (stream_response nc),
       mkWorld c1 cl1 h s ts nt (S nc) (ls ++ [nc]),
       load_trace c ++ [EvListen nc])
    else
      (Normal (stream_response nc),
       mkWorld c1 cl1 (Some nt) s (ts ++ [nt]) (S nt) (S nc) (ls ++ [nc]),
       load_trace c ++ [EvSetInterval nt 1000; EvListen nc])
  else
    (Normal (stream_response nc),
     mkWorld c1 cl1 h s ts nt (S nc) (ls ++ [nc]),
     load_trace c ++ [EvEnqueue nc (sse_data c1) true; EvListen nc]).
Proof.
  unfold fetch. cbn [String.eqb Ascii.eqb Bool.eqb orb].
  unfold storage_get, new_client, clients_add, clients_size,
    add_abort_listener.
  destruct c as [n|]; js_simpl;
    (destruct (List.length (Set_add nc cl) =? 1);
     [ destruct h as [[|i]|]; reflexivity | reflexivity ]).
Qed.

Lemma fetch_cases path w :
  path = "/events"
  \/ ((path = "/" \/ path = "")
      /\ fetch path w = (Normal page_response, w, []))
  \/ (path <> "/" /\ path <> "" /\ path <> "/events"
      /\ fetch path w = (Normal not_found_response, w, [])).
Proof.
  unfold fetch.
  destruct (String.eqb_spec path "/") as [E1|E1];
    [right; left; split; [now left | reflexivity]|].
  destruct (String.eqb_spec path "") as [E2|E2];
    [right; left; split; [now right | reflexivity]|].
  destruct (String.eqb_spec path "/events") as [E3|E3]; [now left|].
  right; right. repeat split; assumption.
Qed.

(** ** Invariant of the reachable worlds *)

Lemma Inv_constructor stored : Inv (constructor stored).
Proof.
  constructor; simpl; try easy; try lia. constructor.
Qed.

Lemma Set_add_fresh nc cl :
  Forall (fun c => c < nc) cl -> Set_add nc cl = cl ++ [nc].
Proof.
  intros H. unfold Set_add.
  destruct (existsb (Nat.eqb nc) cl) eqn:E; [|reflexivity].
  apply existsb_exists in E as (x & Hx & Hx').
  apply Nat.eqb_eq in Hx'. subst x.
  rewrite Forall_forall in H. apply H in Hx. lia.
Qed.

Lemma NoDup_snoc_fresh nc cl :
  Forall (fun c => c < nc) cl -> NoDup cl -> NoDup (cl ++ [nc]).
Proof.
  intros HF HN. induction HN as [|a l Ha HN IH]; simpl.
  - constructor; [easy | constructor].
  - inversion HF; subst. constructor; [|now apply IH].
    rewrite in_app_iff. intros [H|[H|[]]]; [easy | lia].
Qed.

Lemma Inv_stop c cl h s ts nt nc ls :
  Inv (mkWorld c cl h s ts nt nc ls) ->
  Inv (snd (fst (stopCounting (mkWorld c [] h s ts nt nc ls)))).
Proof.
  intros []. rewrite stopCounting_eq. unfold durable in *. cbn in *.
  destruct h as [[|i]|]; cbn.
  - specialize (inv_handle0 0 eq_refl). lia.
  - subst ts. constructor; cbn; try easy.
    + now rewrite Nat.eqb_refl.
    + constructor.
  - constructor; cbn; try easy. constructor.
Qed.

Lemma length_snoc_eqb1 {A} (l : list A) (a : A) :
  (List.length (l ++ [a]) =? 1) = is_empty l.
Proof.
  destruct l as [|b l]; [reflexivity|]. simpl.
  rewrite length_app. simpl. apply Nat.eqb_neq. lia.
Qed.

Lemma Forall_lt_S (nc : nat) (cl : list nat) :
  Forall (fun c => c < nc) cl -> Forall (fun c => c < S nc) (cl ++ [nc]).
Proof.
  intros H. apply Forall_app. split.
  - eapply Forall_impl; [|exact H]. cbn. lia.
  - constructor; [lia | constructor].
Qed.

Lemma Inv_fetch path w :
  Inv w -> Inv (snd (fst (fetch path w))).
Proof.
  intros HI.
  destruct (fetch_cases path w) as [->|[(_ & ->)|(_ & _ & _ & ->)]];
    try exact HI.
  destruct w as [c cl h s ts nt nc ls]. rewrite fetch_events_eq.
  destruct HI; unfold durable in *; cbn in *.
  rewrite (Set_add_fresh _ _ inv_alloc0), length_snoc_eqb1.
  assert (HL : forall n, loaded c s = Some n ->
                         (value (or_zero s) <= value n)%N).
  { destruct c as [m|]; cbn; intros n E; [now apply inv_durable0|].
    injection E as <-. lia. }
  assert (HL' : loaded c s <> None) by now destruct c.
  pose proof (Forall_lt_S _ _ inv_alloc0) as HA.
  pose proof (NoDup_snoc_fresh _ _ inv_alloc0 inv_nodup0) as HN.
  destruct cl as [|a l]; cbn [is_empty].
  - assert (h = None) by now apply inv_running0. subst h ts. cbn.
    constructor; cbn; try easy; try lia.
    intros i [= <-]. lia.
  - assert (Hh : h <> None) by (rewrite <- inv_running0; easy).
    cbn. constructor; cbn; easy.
Qed.

Lemma Inv_shrink p c cl h s ts nt nc ls :
  Inv (mkWorld c cl h s ts nt nc ls) ->
  filter p cl <> [] ->
  Inv (mkWorld c (filter p cl) h s ts nt nc ls).
Proof.
  intros [] Hne; unfold durable in *; cbn in *.
  assert (Hcl : cl <> []) by (intros ->; now apply Hne).
  constructor; cbn; try easy.
  - split; [easy|]. intros Hh. now apply inv_running0 in Hh.
  - intros _. now apply inv_loaded0.
  - apply Forall_forall. intros y Hy. apply filter_In in Hy as [Hy _].
    rewrite Forall_forall in inv_alloc0. now apply inv_alloc0.
  - now apply NoDup_filter.
Qed.

Lemma Inv_abort x w :
  Inv w ->
  Inv (snd (fst (on_abort x (set_listeners (Set_delete x (listeners w)) w)))).
Proof.
  intros HI. destruct w as [c cl h s ts nt nc ls].
  unfold set_listeners. cbn [counter clients intervalId storage timers
    next_timer next_client listeners].
  assert (HI' : Inv (mkWorld c cl h s ts nt nc (Set_delete x ls)))
    by (destruct HI; now constructor).
  rewrite on_abort_eq.
  destruct (Set_delete x cl) as [|a l] eqn:E; cbn [is_empty].
  - now apply (Inv_stop c cl h s ts nt nc).
  - rewrite <- E. apply (Inv_shrink (fun y => negb (y =? x))); [exact HI'|].
    change (Set_delete x cl <> []). now rewrite E.
Qed.

Lemma Inv_tick accept w :
  Inv w -> Inv (snd (fst (interval_callback accept true w))).
Proof.
  intros HI. destruct w as [c cl h s ts nt nc ls].
  rewrite interval_callback_eq. cbv zeta.
  assert (HI' : Inv (mkWorld (Some (Number_succ (to_number c))) cl h
                       (Some (Number_succ (to_number c))) ts nt nc ls)).
  { destruct HI; unfold durable in *;
      cbn [counter clients intervalId storage timers next_timer next_client
           listeners] in *.
    constructor;
      cbn [counter clients intervalId storage timers next_timer next_client
           listeners]; try easy.
    intros n [= <-]. unfold durable. cbn [storage].
    rewrite or_zero_some. lia. }
  clear HI.
  destruct (filter accept cl) as [|a l] eqn:E; cbn [is_empty].
  - destruct (stopCounting _) as [[r w2] t2] eqn:Es. cbn.
    change w2 with (snd (fst (r, w2, t2))). rewrite <- Es.
    now apply (Inv_stop _ cl).
  - cbn. rewrite <- E. apply Inv_shrink; [exact HI'|]. now rewrite E.
Qed.

(** The timer only fires while the counter is loaded. *)
Lemma firing_loaded i w :
  Inv w -> existsb (Nat.eqb i) (timers w) = true ->
  exists n, counter w = Some n.
Proof.
  intros [] E. rewrite inv_timers0 in E.
  destruct (intervalId w) as [j|] eqn:Ej; [|discriminate].
  assert (Hne : clients w <> []).
  { intros Hcl. apply inv_running0 in Hcl. congruence. }
  apply inv_loaded0 in Hne.
  destruct (counter w) as [n|]; [now exists n | contradiction].
Qed.

Lemma Inv_tick_rejected accept w :
  Inv w -> counter w <> None ->
  Inv (snd (fst (interval_callback accept false w))).
Proof.
  intros HI Hc. destruct w as [c cl h s ts nt nc ls].
  rewrite interval_callback_rejected. cbn [fst snd].
  destruct HI; unfold durable in *;
    cbn [counter clients intervalId storage timers next_timer next_client
         listeners] in *.
  constructor;
    cbn [counter clients intervalId storage timers next_timer next_client
         listeners]; try easy.
  intros n [= <-]. unfold durable. cbn [storage].
  destruct c as [m|]; [|contradiction]. cbn [to_number].
  pose proof (inv_durable0 m eq_refl). pose proof (value_succ_le m). lia.
Qed.

Lemma Inv_step op w : Inv w -> Inv (fst (step op w)).
Proof.
  intros HI. destruct op as [path|x|i accept ok]; cbn [step].
  - now apply Inv_fetch.
  - destruct (existsb _ _); [now apply Inv_abort | exact HI].
  - destruct (existsb _ _) eqn:E; [|exact HI].
    destruct ok; [now apply Inv_tick|].
    apply Inv_tick_rejected; [exact HI|].
    destruct (firing_loaded i w HI E) as [n Hn]. congruence.
Qed.

Lemma Inv_run ops : forall w, Inv w -> Inv (fst (run ops w)).
Proof.
  induction ops as [|op ops IH]; intros w HI; [exact HI|].
  cbn [run]. pose proof (Inv_step op w HI) as H1.
  destruct (step op w) as [w1 t1]. specialize (IH w1 H1).
  now destruct (run ops w1) as [w2 t2].
Qed.

Lemma Inv_reachable stored ops : Inv (fst (run ops (constructor stored))).
Proof. apply Inv_run, Inv_constructor. Qed.

Lemma running_iff w : Inv w -> running w = negb (is_empty (clients w)).
Proof.
  intros []. unfold running.
  destruct (intervalId w) as [i|] eqn:Ei.
  - destruct (inv_handle0 i eq_refl) as [Hi _]. rewrite inv_timers0.
    cbn. rewrite Nat.eqb_refl.
    destruct i as [|i]; [lia|]. cbn.
    destruct (clients w); [|reflexivity].
    now destruct inv_running0 as [H _]; specialize (H eq_refl).
  - destruct inv_running0 as [_ H]. now rewrite (H eq_refl).
Qed.

Lemma fetch_events_nonempty w :
  Inv w -> clients (snd (fst (fetch "/events" w))) <> [].
Proof.
  intros HI. destruct w as [c cl h s ts nt nc ls]. rewrite fetch_events_eq.
  rewrite (Set_add_fresh nc cl) by now destruct HI. cbv zeta.
  case_ifs;
    cbn; now destruct cl.
Qed.

(** ** Idle/Running equivalence *)

(** C3. After every sequence of operations of an activation (attach, abort,
    timer firing, in any order and with any delivery failures), the loop is
    Running, i.e. the object holds the handle of a live timer, exactly when
    the subscriber set is non-empty.  In particular an attach always leaves
    the loop Running, and an operation that leaves the set empty leaves the
    loop stopped with no live timer. *)
Theorem running_iff_subscribers (stored : option Number) (ops : list Op) :
  let w := fst (run ops (constructor stored)) in
  running w = negb (is_empty (clients w))
  /\ running (fst (step (OpFetch "/events") w)) = true
  /\ (forall op,
        is_empty (clients (fst (step op w))) = true ->
        intervalId (fst (step op w)) = None /\ timers (fst (step op w)) = []).
Proof.
  intros w. pose proof (Inv_reachable stored ops) as HI. fold w in HI.
  split; [now apply running_iff|]. split.
  - rewrite running_iff by now apply Inv_step.
    cbn [step outcome fst].
    pose proof (fetch_events_nonempty w HI) as H.
    now destruct (clients _).
  - intros op Hop. pose proof (Inv_step op w HI) as [].
    destruct (clients (fst (step op w))); [|discriminate].
    destruct inv_running0 as [H _]. specialize (H eq_refl).
    rewrite inv_timers0, H. now split.
Qed.

(** The loop starts on the first attach, and stops when the last subscriber
    aborts or when the tick cannot deliver to anyone. *)
Lemma running_iff_subscribers_witness :
  let w := fst (run [OpFetch "/events"] (constructor None)) in
  (is_empty (clients (fst (step (OpAbort 0) w))) = true
   /\ intervalId (fst (step (OpAbort 0) w)) = None
   /\ timers (fst (step (OpAbort 0) w)) = [])
  /\ (is_empty (clients (fst (step (OpTimer 1 (fun _ => false) true) w))) = true
      /\ intervalId (fst (step (OpTimer 1 (fun _ => false) true) w)) = None
      /\ timers (fst (step (OpTimer 1 (fun _ => false) true) w)) = []).
Proof.
  pose proof (running_iff_subscribers None [OpFetch "/events"])
    as (_ & _ & H).
  split.
  - split; [reflexivity|]. apply (H (OpAbort 0)). reflexivity.
  - split; [reflexivity|]. apply (H (OpTimer 1 (fun _ => false) true)).
    reflexivity.
Defined.

(** ** Unknown routes *)

(** C9. A request whose path is none of [/], the empty path and [/events] is
    answered with status 404 and leaves the whole world (counter, subscriber
    set, timer handle, store, host timers) as it was, making no host call. *)
Theorem unknown_route_not_found (path : string) (w : World) :
  path <> "/" -> path <> "" -> path <> "/events" ->
  fetch path w = (Normal not_found_response, w, [])
  /\ status not_found_response = 404
  /\ step (OpFetch path) w = (w, []).
Proof.
  intros H1 H2 H3.
  destruct (fetch_cases path w) as [E|[([E|E] & _)|(_ & _ & _ & E)]];
    try contradiction.
  cbn [step]. rewrite E. now repeat split.
Qed.

Lemma unknown_route_not_found_witness :
  fetch "/metrics" (constructor (Some (Number_of_N 5)))
    = (Normal not_found_response, constructor (Some (Number_of_N 5)), [])
  /\ status not_found_response = 404
  /\ step (OpFetch "/metrics") (constructor (Some (Number_of_N 5)))
     = (constructor (Some (Number_of_N 5)), []).
Proof.
  apply (unknown_route_not_found "/metrics"); discriminate.
Defined.

(** ** At most one timer *)

Lemma stop_then_start w :
  Inv w ->
  let w1 := snd (fst (stopCounting w)) in
  intervalId w1 = None /\ timers w1 = []
  /\ let w2 := snd (fst (startCounting w1)) in
     intervalId w2 = Some (next_timer w)
     /\ timers w2 = [next_timer w]
     /\ snd (startCounting w1) = [EvSetInterval (next_timer w) 1000].
Proof.
  intros HI. destruct w as [c cl h s ts nt nc ls].
  rewrite stopCounting_eq. destruct HI; cbn in *.
  destruct h as [[|i]|]; subst ts; cbn.
  - specialize (inv_handle0 0 eq_refl). lia.
  - rewrite Nat.eqb_refl. now cbn.
  - easy.
Qed.

(** C10. In every reachable world at most one interval timer is live, and it
    is the one whose handle the object holds.  [startCounting] with a handle
    present changes nothing and [stopCounting] with no handle changes
    nothing.  After [stopCounting] the handle is [null] and no timer is
    live, and the next [startCounting] creates a timer under a handle that
    was not live before. *)
Theorem single_tick_timer (stored : option Number) (ops : list Op) :
  let w := fst (run ops (constructor stored)) in
  (List.length (timers w) <= 1
   /\ timers w = match intervalId w with Some i => [i] | None => [] end)
  /\ (forall w0, truthy (intervalId w0) = true ->
        startCounting w0 = (Normal tt, w0, []))
  /\ (forall w0, truthy (intervalId w0) = false ->
        stopCounting w0 = (Normal tt, w0, []))
  /\ (let w1 := snd (fst (stopCounting w)) in
      intervalId w1 = None /\ timers w1 = []
      /\ let w2 := snd (fst (startCounting w1)) in
         intervalId w2 = Some (next_timer w)
         /\ timers w2 = [next_timer w]
         /\ snd (startCounting w1) = [EvSetInterval (next_timer w) 1000])
  /\ ~ In (next_timer w) (timers w).
Proof.
  intros w. pose proof (Inv_reachable stored ops) as HI. fold w in HI.
  split; [|split; [|split; [|split]]].
  - destruct HI. rewrite inv_timers0.
    split; [destruct (intervalId w); simpl; lia | reflexivity].
  - intros w0 H. unfold startCounting, bind, read, ret. now rewrite H.
  - intros w0 H. unfold stopCounting, bind, read, ret. now rewrite H.
  - now apply stop_then_start.
  - destruct HI. rewrite inv_timers0.
    destruct (intervalId w) as [i|] eqn:E; [|easy].
    intros [H|[]]. specialize (inv_handle0 i eq_refl). lia.
Qed.

Lemma single_tick_timer_witness :
  startCounting (fst (run [OpFetch "/events"] (constructor None)))
    = (Normal tt,
       fst (run [OpFetch "/events"] (constructor None)), [])
  /\ stopCounting (constructor None) = (Normal tt, constructor None, []).
Proof.
  pose proof (single_tick_timer None []) as (_ & Hstart & Hstop & _).
  split; [apply Hstart | apply Hstop]; reflexivity.
Defined.

(** ** Resuming from the persisted value *)

(** C8. An activation over a store holding 42, with no subscriber: the first
    attach reads the store, starts the timer and enqueues nothing; the first
    firing of that timer puts 43 and then enqueues the record
    [data: 43\n\n] on the subscriber's channel.  (Were that put rejected, the
    firing would enqueue nothing and leave the store at 42.) *)
Theorem restart_first_broadcast (accept' : client -> bool) :
  let w0 := constructor (Some (Number_of_N 42)) in
  let w1 := fst (step (OpFetch "/events") w0) in
  let w2 := fst (step (OpTimer 1 accept' true) w1) in
  (clients w0 = [] /\ running w0 = false)
  /\ snd (step (OpFetch "/events") w0)
     = [EvGet; EvSetInterval 1 1000; EvListen 0]
  /\ (running w1 = true /\ clients w1 = [0]
      /\ counter w1 = Some (Number_of_N 42))
  /\ snd (step (OpTimer 1 accept' true) w1)
     = EvPut (Number_of_N 43)
         :: EvEnqueue 0 (sse_record (Number_of_N 43)) (accept' 0)
         :: (if accept' 0 then [] else [EvConsoleError 0; EvClearInterval 1])
  /\ sse_record (Number_of_N 43)
     = list_byte_of_string ("data: 43" ++ LF ++ LF)
  /\ (counter w2 = Some (Number_of_N 43)
      /\ storage w2 = Some (Number_of_N 43))
  /\ (snd (step (OpTimer 1 accept' false) w1)
      = [EvPutRejected (Number_of_N 43)]
      /\ storage (fst (step (OpTimer 1 accept' false) w1))
         = Some (Number_of_N 42)).
Proof.
  cbv zeta.
  assert (Ht : step (OpTimer 1 accept' true)
                 (fst (step (OpFetch "/events")
                         (constructor (Some (Number_of_N 42)))))
               = (mkWorld (Some (Number_of_N 43))
                    (if accept' 0 then [0] else [])
                    (if accept' 0 then Some 1 else None)
                    (Some (Number_of_N 43))
                    (if accept' 0 then [1] else []) 2 1 [0],
                  EvPut (Number_of_N 43)
                    :: EvEnqueue 0 (sse_record (Number_of_N 43)) (accept' 0)
                    :: (if accept' 0 then []
                        else [EvConsoleError 0; EvClearInterval 1]))).
  { cbn [step run fst]. change (fst (outcome (fetch "/events"
        (constructor (Some (Number_of_N 42))))))
      with (mkWorld (Some (Number_of_N 42)) [0] (Some 1)
              (Some (Number_of_N 42)) [1] 2 1 [0]).
    cbn [timers existsb Nat.eqb orb]. rewrite interval_callback_eq.
    cbv zeta. unfold broadcast_trace. cbn [filter flat_map app].
    destruct (accept' 0); reflexivity. }
  rewrite Ht. repeat split; try reflexivity; now destruct (accept' 0).
Qed.

(** ** Traces *)

Lemma reads_app t1 t2 : reads (t1 ++ t2) = reads t1 + reads t2.
Proof.
  induction t1 as [|e t1 IH]; [reflexivity|].
  destruct e; simpl; now rewrite IH.
Qed.

Lemma delivered_app c t1 t2 :
  delivered c (t1 ++ t2) = delivered c t1 ++ delivered c t2.
Proof.
  induction t1 as [|e t1 IH]; [reflexivity|].
  destruct e as [| | | c' d [|] | | | |]; simpl; rewrite ?IH; try reflexivity.
  now destruct (c' =? c).
Qed.

Lemma enqueued_app c t1 t2 :
  enqueued c (t1 ++ t2) = enqueued c t1 ++ enqueued c t2.
Proof.
  induction t1 as [|e t1 IH]; [reflexivity|].
  destruct e as [| | | c' d b | | | |]; simpl; rewrite ?IH; try reflexivity.
  now destruct (c' =? c).
Qed.

Lemma replay_app s t1 t2 : replay s (t1 ++ t2) = replay (replay s t1) t2.
Proof.
  revert s. induction t1 as [|e t1 IH]; intros s; [reflexivity|].
  destruct e; simpl; now rewrite IH.
Qed.

Lemma quiet_facts t :
  quiet t = true ->
  reads t = 0 /\ (forall c, enqueued c t = []) /\ (forall c, delivered c t = [])
  /\ (forall s, replay s t = s).
Proof.
  induction t as [|e t IH]; [easy|]. simpl. intros H.
  apply andb_true_iff in H as [He Ht]. specialize (IH Ht).
  destruct e; try discriminate; exact IH.
Qed.

Lemma stopCounting_facts w :
  fst (fst (stopCounting w)) = Normal tt
  /\ quiet (snd (stopCounting w)) = true
  /\ counter (snd (fst (stopCounting w))) = counter w
  /\ storage (snd (fst (stopCounting w))) = storage w
  /\ clients (snd (fst (stopCounting w))) = clients w
  /\ next_client (snd (fst (stopCounting w))) = next_client w.
Proof.
  destruct w as [c cl h s ts nt nc ls]. rewrite stopCounting_eq.
  now destruct h as [[|i]|].
Qed.

Lemma reads_broadcast accept data cs :
  reads (broadcast_trace accept data cs) = 0.
Proof.
  induction cs as [|x cs IH]; [reflexivity|]. simpl.
  now destruct (accept x).
Qed.

(** ** Lazy load of the counter *)

Lemma reads_step op w :
  reads (snd (step op w)) + pending_load (fst (step op w)) <= pending_load w.
Proof.
  destruct op as [path|x|i accept ok]; cbn [step].
  - destruct (fetch_cases path w) as [->|[(_ & ->)|(_ & _ & _ & ->)]];
      [|cbn; lia|cbn; lia].
    destruct w as [c cl h s ts nt nc ls]. rewrite fetch_events_eq. cbv zeta.
    case_ifs;
      unfold pending_load; destruct c; cbn; lia.
  - destruct (existsb _ _); [|cbn; lia].
    destruct w as [c cl h s ts nt nc ls]. unfold set_listeners.
    cbn [counter clients intervalId storage timers next_timer next_client
         listeners].
    rewrite on_abort_eq.
    destruct (is_empty _); [|unfold pending_load; cbn; lia].
    destruct (stopCounting_facts (mkWorld c (Set_delete x cl) h s ts nt nc
                (Set_delete x ls))) as (_ & Hq & Hc & _).
    apply quiet_facts in Hq as (Hr & _). unfold outcome, pending_load.
    cbn [fst snd]. rewrite Hr, Hc. cbn. lia.
  - destruct (existsb _ _); [|cbn; lia].
    destruct w as [c cl h s ts nt nc ls].
    destruct ok; [|rewrite interval_callback_rejected; cbn; lia].
    rewrite interval_callback_eq.
    cbv zeta. unfold outcome, pending_load.
    destruct (is_empty _).
    + match goal with |- context [stopCounting ?w] =>
        destruct (stopCounting_facts w) as (_ & Hq & Hc & _);
        destruct (stopCounting w) as [[r w2] t2] end.
      apply quiet_facts in Hq as (Hr & _). cbn in *.
      rewrite Hc, reads_app, reads_broadcast, Hr. lia.
    + cbn. rewrite reads_broadcast. lia.
Qed.

Lemma reads_run ops : forall w,
  reads (snd (run ops w)) + pending_load (fst (run ops w)) <= pending_load w.
Proof.
  induction ops as [|op ops IH]; intros w; [cbn; lia|].
  cbn [run]. pose proof (reads_step op w) as H1.
  destruct (step op w) as [w1 t1]. specialize (IH w1).
  destruct (run ops w1) as [w2 t2]. cbn in *. rewrite reads_app. lia.
Qed.

Lemma fetch_events_facts w :
  exists rest,
    snd (fetch "/events" w) = load_trace (counter w) ++ rest
    /\ reads rest = 0
    /\ counter (snd (fst (fetch "/events" w)))
       = loaded (counter w) (storage w)
    /\ storage (snd (fst (fetch "/events" w))) = storage w
    /\ next_client (snd (fst (fetch "/events" w)))
       = S (next_client w).
Proof.
  destruct w as [c cl h s ts nt nc ls]. rewrite fetch_events_eq. cbv zeta.
  case_ifs;
    eexists; cbn; repeat split; reflexivity.
Qed.

Lemma fetch_other_path path w :
  path <> "/events" -> fetch path w = (Normal page_response, w, [])
                       \/ fetch path w = (Normal not_found_response, w, []).
Proof.
  intros H.
  destruct (fetch_cases path w) as [E|[(_ & E)|(_ & _ & _ & E)]];
    [contradiction | now left | now right].
Qed.




(** ** Persistence before broadcast *)

Lemma committed_app s t1 t2 :
  committed s (t1 ++ t2) <-> committed s t1 /\ committed (replay s t1) t2.
Proof.
  revert s. induction t1 as [|e t1 IH]; intros s; [simpl; tauto|].
  destruct e; simpl; rewrite ?IH; tauto.
Qed.

Lemma committed_quiet s t : quiet t = true -> committed s t.
Proof.
  induction t as [|e t IH]; [easy|]. simpl. intros H.
  apply andb_true_iff in H as [He Ht].
  destruct e; try discriminate; now apply IH.
Qed.

Lemma broadcast_trace_cons accept data x cs :
  broadcast_trace accept data (x :: cs)
  = EvEnqueue x data (accept x)
      :: (if accept x then [] else [EvConsoleError x])
      ++ broadcast_trace accept data cs.
Proof. reflexivity. Qed.

Lemma committed_broadcast accept v cs :
  committed (Some v) (broadcast_trace accept (sse_record v) cs)
  /\ replay (Some v) (broadcast_trace accept (sse_record v) cs) = Some v.
Proof.
  induction cs as [|x cs [IH1 IH2]]; [easy|].
  rewrite broadcast_trace_cons.
  destruct (accept x); cbn [app committed replay]; now rewrite or_zero_some.
Qed.

(** The trace of one tick: the put, then the enqueues, then possibly the
    stop of the timer. *)
Lemma tick_trace accept w :
  exists tail,
    snd (interval_callback accept true w)
      = EvPut (Number_succ (to_number (counter w)))
          :: broadcast_trace accept
               (sse_record (Number_succ (to_number (counter w))))
               (clients w) ++ tail
    /\ quiet tail = true
    /\ fst (fst (interval_callback accept true w)) = Normal tt
    /\ counter (snd (fst (interval_callback accept true w)))
       = Some (Number_succ (to_number (counter w)))
    /\ storage (snd (fst (interval_callback accept true w)))
       = Some (Number_succ (to_number (counter w)))
    /\ clients (snd (fst (interval_callback accept true w)))
       = filter accept (clients w)
    /\ next_client (snd (fst (interval_callback accept true w)))
       = next_client w.
Proof.
  destruct w as [c cl h s ts nt nc ls]. rewrite interval_callback_eq.
  cbv zeta. cbn [counter clients].
  destruct (filter accept cl) as [|a l] eqn:E; cbn [is_empty].
  - match goal with |- context [stopCounting ?w] =>
      destruct (stopCounting_facts w) as (Hn & Hq & Hc & Hs & Hcl & Hnc);
      destruct (stopCounting w) as [[r w2] t2] end.
    cbn in *. exists t2. now rewrite Hc, Hs, Hcl, Hnc.
  - exists []. cbn. now rewrite app_nil_r.
Qed.

(** A firing whose put is rejected: the incremented counter stays, the
    store and the subscribers are untouched, nothing is enqueued. *)
Lemma tick_rejected accept w :
  fst (fst (interval_callback accept false w)) = Throw
  /\ snd (interval_callback accept false w)
     = [EvPutRejected (Number_succ (to_number (counter w)))]
  /\ counter (snd (fst (interval_callback accept false w)))
     = Some (Number_succ (to_number (counter w)))
  /\ storage (snd (fst (interval_callback accept false w))) = storage w
  /\ clients (snd (fst (interval_callback accept false w))) = clients w
  /\ next_client (snd (fst (interval_callback accept false w)))
     = next_client w
  /\ intervalId (snd (fst (interval_callback accept false w)))
     = intervalId w.
Proof. now destruct w. Qed.

Lemma committed_step op w :
  Inv w -> synced w ->
  committed (storage w) (snd (step op w))
  /\ replay (storage w) (snd (step op w)) = storage (fst (step op w)).
Proof.
  intros HI HS. destruct op as [path|x|i accept ok]; cbn [step].
  - destruct (fetch_cases path w) as [->|[(_ & ->)|(_ & _ & _ & ->)]];
      [|easy|easy].
    destruct w as [c cl h s ts nt nc ls]. rewrite fetch_events_eq. cbv zeta.
    assert (HL : sse_data (loaded c s) = sse_record (or_zero s)).
    { destruct c as [n|]; cbn [loaded]; [|reflexivity].
      unfold synced, durable in HS. cbn [counter storage] in HS.
      now rewrite (HS n eq_refl). }
    case_ifs; destruct c; cbn [outcome fst snd load_trace app committed
      replay storage]; rewrite ?HL; easy.
  - destruct (existsb _ _); [|easy].
    destruct w as [c cl h s ts nt nc ls]. unfold set_listeners.
    cbn [counter clients intervalId storage timers next_timer next_client
         listeners].
    rewrite on_abort_eq. destruct (is_empty _); [|easy].
    match goal with |- context [stopCounting ?w] =>
      destruct (stopCounting_facts w) as (_ & Hq & _ & Hs & _) end.
    unfold outcome. cbn [fst snd]. rewrite Hs.
    split; [now apply committed_quiet | now apply quiet_facts].
  - destruct (existsb _ _); [|easy].
    destruct ok.
    + destruct (tick_trace accept w) as (tail & Ht & Hq & _ & _ & Hs & _).
      unfold outcome. cbn [fst snd]. rewrite Ht, Hs. cbn [committed replay].
      destruct (committed_broadcast accept (Number_succ (to_number (counter w)))
                  (clients w)) as [H1 H2].
      rewrite committed_app, replay_app, H2.
      split; [split; [exact H1 | now apply committed_quiet]
             | now apply quiet_facts].
    + destruct (tick_rejected accept w) as (_ & Ht & _ & Hs & _).
      unfold outcome. cbn [fst snd]. now rewrite Ht, Hs.
Qed.

Lemma step_abort_state x w :
  counter (fst (step (OpAbort x) w)) = counter w
  /\ storage (fst (step (OpAbort x) w)) = storage w.
Proof.
  cbn [step]. destruct (existsb _ _); [|easy].
  destruct w as [c cl h s ts nt nc ls]. unfold set_listeners.
  cbn [counter clients intervalId storage timers next_timer next_client
       listeners].
  rewrite on_abort_eq. destruct (is_empty _); [|easy].
  match goal with |- context [stopCounting ?w] =>
    destruct (stopCounting_facts w) as (_ & _ & Hc & Hs & _) end.
  unfold outcome. cbn [fst snd]. now rewrite Hc, Hs.
Qed.

Lemma synced_constructor stored : synced (constructor stored).
Proof. intros n H. discriminate. Qed.

(** The counter stays equal to the value the store reflects through every
    operation other than a firing whose put is rejected. *)
Lemma synced_step op w :
  synced w ->
  match op with OpTimer _ _ ok => ok | _ => true end = true ->
  synced (fst (step op w)).
Proof.
  intros HS Hok. unfold synced, durable in *.
  destruct op as [path|x|i accept ok].
  - cbn [step outcome fst].
    destruct (String.eqb_spec path "/events") as [->|Hp].
    + destruct (fetch_events_facts w) as (_ & _ & _ & Hc & Hs & _).
      rewrite Hc, Hs. destruct (counter w) as [m|] eqn:Ec; cbn [loaded].
      * exact HS.
      * now intros n [= <-].
    + now destruct (fetch_other_path path w Hp) as [-> | ->].
  - destruct (step_abort_state x w) as (Hc & Hs). now rewrite Hc, Hs.
  - cbn [step]. destruct (existsb _ _); [|exact HS]. subst ok.
    destruct (tick_trace accept w) as (_ & _ & _ & _ & Hc & Hs & _).
    unfold outcome. cbn [fst]. rewrite Hc, Hs.
    intros n [= <-]. apply or_zero_some.
Qed.

Lemma committed_run ops : forall w,
  Inv w -> synced w -> puts_ok ops = true ->
  committed (storage w) (snd (run ops w))
  /\ synced (fst (run ops w)).
Proof.
  induction ops as [|op ops IH]; intros w HI HS Hok; [now split|].
  unfold puts_ok in Hok. cbn [forallb] in Hok.
  apply andb_true_iff in Hok as [Hop Hops].
  cbn [run]. pose proof (Inv_step op w HI) as H1.
  destruct (committed_step op w HI HS) as [Hc Hr].
  pose proof (synced_step op w HS Hop) as HS1.
  destruct (step op w) as [w1 t1].
  destruct (IH w1 H1 HS1 Hops) as [IH1 IH2].
  destruct (run ops w1) as [w2 t2]. cbn in *.
  split; [|exact IH2].
  apply committed_app. split; [exact Hc | now rewrite Hr].
Qed.

(** C1 (as amended).  A tick first completes the put of the new counter
    value and only then enqueues, and every record it enqueues is the record
    of exactly that value; after the tick the store holds it.  A tick whose
    put is rejected enqueues nothing: the callback ends there, with the
    counter incremented and the store as it was.  So every value a tick
    delivers is already in the store.  Over an activation in which no put is
    rejected, every record enqueued on any channel (by a tick or as
    catch-up) is the record of the value the store reflects at that moment,
    where a store with no entry reflects 0. *)
Theorem persist_before_broadcast :
  (forall accept w, exists tail,
     let v := Number_succ (to_number (counter w)) in
     snd (interval_callback accept true w)
       = EvPut v :: broadcast_trace accept (sse_record v) (clients w) ++ tail
     /\ quiet tail = true
     /\ storage (snd (fst (interval_callback accept true w))) = Some v
     /\ counter (snd (fst (interval_callback accept true w))) = Some v)
  /\ (forall accept w,
        let v := Number_succ (to_number (counter w)) in
        fst (fst (interval_callback accept false w)) = Throw
        /\ snd (interval_callback accept false w) = [EvPutRejected v]
        /\ counter (snd (fst (interval_callback accept false w))) = Some v
        /\ storage (snd (fst (interval_callback accept false w)))
           = storage w)
  /\ (forall stored ops,
        puts_ok ops = true ->
        committed stored (snd (run ops (constructor stored)))).
Proof.
  split; [|split].
  - intros accept w.
    destruct (tick_trace accept w) as (tail & Ht & Hq & _ & Hc & Hs & _).
    exists tail. cbv zeta. now rewrite Ht, Hs, Hc.
  - intros accept w. cbv zeta.
    now destruct (tick_rejected accept w) as (H1 & H2 & H3 & H4 & _).
  - intros stored ops Hok.
    apply (committed_run ops (constructor stored));
      [apply Inv_constructor | apply synced_constructor | exact Hok].
Qed.

(** Fresh session, two subscribers, two ticks: each record is the value the
    store holds when it is enqueued. *)
Lemma persist_before_broadcast_witness :
  committed None
    (snd (run [OpFetch "/events"; OpTimer 1 accept_all true;
               OpFetch "/events"; OpTimer 1 accept_all true]
            (constructor None))).
Proof.
  destruct persist_before_broadcast as (_ & _ & H).
  apply H. reflexivity.
Defined.

(** A put is rejected at the first tick; the counter is 1 in memory and the
    store has no entry; the second subscriber is sent [data: 1] as catch-up,
    a value that is not in the store. *)
Lemma catch_up_sends_uncommitted_value :
  let r := run [OpFetch "/events"; OpTimer 1 accept_all false;
                OpFetch "/events"] (constructor None) in
  snd r = [EvGet; EvSetInterval 1 1000; EvListen 0;
           EvPutRejected (Number_of_N 1);
           EvEnqueue 1 (sse_record (Number_of_N 1)) true; EvListen 1]
  /\ storage (fst r) = None
  /\ counter (fst r) = Some (Number_of_N 1)
  /\ sse_record (Number_of_N 1) <> sse_record (durable (fst r))
  /\ ~ committed None (snd r).
Proof.
  cbv zeta. split; [reflexivity|]. split; [reflexivity|].
  split; [reflexivity|]. split.
  - intros H. vm_compute in H. discriminate.
  - intros H. cbn [run step] in H. vm_compute in H. destruct H as [H _].
    discriminate.
Qed.
(** ** Catch-up on attach *)

Lemma list_byte_of_string_app (a b : string) :
  list_byte_of_string (a ++ b)
  = list_byte_of_string a ++ list_byte_of_string b.
Proof.
  induction a as [|x a IH]; [reflexivity|].
  cbn [String.append]. unfold list_byte_of_string in *.
  cbn [list_ascii_of_string map app]. now rewrite IH.
Qed.

(** The bytes of the record of [n]: [data: ], the decimal digits of [n], two
    line feeds. *)
Lemma sse_record_bytes n :
  sse_record n
  = [Byte.x64; Byte.x61; Byte.x74; Byte.x61; Byte.x3a; Byte.x20]
      ++ list_byte_of_string (number_to_string n) ++ [Byte.x0a; Byte.x0a].
Proof.
  unfold sse_record, sse_data, TextEncoder_encode. cbn [template_of_counter].
  now rewrite !list_byte_of_string_app.
Qed.

Lemma number_to_string_reads_back n :
  NilZero.uint_of_string (number_to_string n) = Some (N.to_uint (value n)).
Proof.
  unfold number_to_string. apply NilZero.usu.
  destruct (value n) as [|p]; [discriminate|].
  apply DecimalPos.Unsigned.to_uint_nonnil.
Qed.

Lemma fetch_events_catch_up w n :
  Inv w ->
  counter w = Some n ->
  clients w <> [] ->
  let c := next_client w in
  let r := fetch "/events" w in
  snd r = [EvEnqueue c (sse_record n) true; EvListen c]
  /\ sse_record n
     = [Byte.x64; Byte.x61; Byte.x74; Byte.x61; Byte.x3a; Byte.x20]
         ++ list_byte_of_string (number_to_string n)
         ++ [Byte.x0a; Byte.x0a]
  /\ NilZero.uint_of_string (number_to_string n) = Some (N.to_uint (value n))
  /\ enqueued c (snd r) = [sse_record n]
  /\ delivered c (snd r) = [sse_record n]
  /\ (forall c', c' <> c -> enqueued c' (snd r) = [])
  /\ fst (fst r) = Normal (stream_response c)
  /\ counter (snd (fst r)) = Some n
  /\ storage (snd (fst r)) = storage w
  /\ clients (snd (fst r)) = clients w ++ [c]
  /\ ~ In c (clients w)
  /\ intervalId (snd (fst r)) = intervalId w
  /\ timers (snd (fst r)) = timers w
  /\ (value (durable w) <= value n)%N.
Proof.
  intros HI Hc Hne c r.
  assert (Hfresh : ~ In c (clients w)).
  { intros Hin. destruct HI. rewrite Forall_forall in inv_alloc0.
    apply inv_alloc0 in Hin. unfold c in Hin. lia. }
  assert (Hd : (value (durable w) <= value n)%N)
    by now apply (inv_durable w HI).
  pose proof (sse_record_bytes n) as Hb.
  pose proof (number_to_string_reads_back n) as Hrb.
  subst r c. destruct w as [c0 cl h s ts nt nc ls].
  rewrite fetch_events_eq. cbv zeta.
  rewrite (Set_add_fresh nc cl) by now destruct HI.
  rewrite length_snoc_eqb1.
  cbn [counter clients next_client] in Hc, Hne, Hfresh. subst c0.
  destruct cl as [|a l]; [contradiction|].
  cbn [is_empty loaded load_trace next_client clients fst snd app counter
       storage intervalId timers enqueued delivered].
  rewrite Nat.eqb_refl.
  repeat split; try easy.
  intros c' Hc'. apply Nat.eqb_neq in Hc'. now rewrite Nat.eqb_sym, Hc'.
Qed.

(** C2 (as amended).  A request on [/events] that finds the counter at [n]
    and the subscriber set non-empty makes exactly one host call before
    registering its abort listener: one enqueue, on the channel of the new
    subscriber, of the bytes [data: ] followed by the decimal digits of [n]
    and two line feeds.  The counter, the store, the timer and the other
    subscribers are left as they were, and the new subscriber is added after
    them.  [n] is the in-memory counter: it is never below the value the
    store reflects, and it is that value when no put has been rejected in
    the activation. *)
Theorem catch_up_on_attach (stored : option Number) (ops : list Op)
    (n : Number) :
  let w := fst (run ops (constructor stored)) in
  counter w = Some n ->
  clients w <> [] ->
  let c := next_client w in
  let r := fetch "/events" w in
  snd r = [EvEnqueue c (sse_record n) true; EvListen c]
  /\ sse_record n
     = [Byte.x64; Byte.x61; Byte.x74; Byte.x61; Byte.x3a; Byte.x20]
         ++ list_byte_of_string (number_to_string n)
         ++ [Byte.x0a; Byte.x0a]
  /\ NilZero.uint_of_string (number_to_string n) = Some (N.to_uint (value n))
  /\ enqueued c (snd r) = [sse_record n]
  /\ delivered c (snd r) = [sse_record n]
  /\ (forall c', c' <> c -> enqueued c' (snd r) = [])
  /\ fst (fst r) = Normal (stream_response c)
  /\ counter (snd (fst r)) = Some n
  /\ storage (snd (fst r)) = storage w
  /\ clients (snd (fst r)) = clients w ++ [c]
  /\ ~ In c (clients w)
  /\ intervalId (snd (fst r)) = intervalId w
  /\ timers (snd (fst r)) = timers w
  /\ (value (durable w) <= value n)%N
  /\ (puts_ok ops = true -> durable w = n).
Proof.
  intros w Hc Hne c r.
  pose proof (fetch_events_catch_up w n (Inv_reachable stored ops) Hc Hne)
    as H.
  cbv zeta in H. fold c r in H.
  repeat (destruct H as [?H H]).
  repeat (split; [assumption|]).
  intros Hok.
  destruct (committed_run ops (constructor stored) (Inv_constructor _)
              (synced_constructor _) Hok) as [_ HS].
  now apply HS.
Qed.

(** Session at 5 with one subscriber: the second subscriber is sent the nine
    bytes of [data: 5] and two line feeds at once. *)
Lemma catch_up_on_attach_witness :
  let w := fst (run [OpFetch "/events"] (constructor (Some (Number_of_N 5)))) in
  counter w = Some (Number_of_N 5) /\ clients w <> []
  /\ snd (fetch "/events" w)
     = [EvEnqueue 1
          [Byte.x64; Byte.x61; Byte.x74; Byte.x61; Byte.x3a; Byte.x20;
           Byte.x35; Byte.x0a; Byte.x0a] true;
        EvListen 1]
  /\ clients (snd (fst (fetch "/events" w))) = [0; 1]
  /\ durable w = Number_of_N 5.
Proof.
  pose proof (catch_up_on_attach (Some (Number_of_N 5)) [OpFetch "/events"]
                (Number_of_N 5) eq_refl ltac:(discriminate)) as H.
  cbv zeta in H.
  destruct H as (H1 & _ & _ & _ & _ & _ & _ & _ & _ & H2 & _ & _ & _ & _ & H3).
  split; [reflexivity|]. split; [discriminate|].
  split; [exact H1|]. split; [exact H2 | exact (H3 eq_refl)].
Defined.

(** The put of the first tick is rejected: the counter is 1 in memory while
    the store has no entry and reflects 0; the second subscriber is sent
    [data: 1], which is not the last value committed. *)
Lemma catch_up_value_ahead_of_store :
  let w := fst (run [OpFetch "/events"; OpTimer 1 accept_all false]
                  (constructor None)) in
  counter w = Some (Number_of_N 1)
  /\ clients w = [0]
  /\ storage w = None
  /\ value (durable w) = 0%N
  /\ snd (fetch "/events" w)
     = [EvEnqueue 1
          [Byte.x64; Byte.x61; Byte.x74; Byte.x61; Byte.x3a; Byte.x20;
           Byte.x31; Byte.x0a; Byte.x0a] true;
        EvListen 1]
  /\ durable w <> Number_of_N 1.
Proof.
  cbv zeta. repeat split; try reflexivity. intros H. discriminate.
Qed.
(** ** Delivery failures *)

Lemma enqueued_broadcast accept data c cs :
  NoDup cs ->
  enqueued c (broadcast_trace accept data cs)
  = if existsb (Nat.eqb c) cs then [data] else [].
Proof.
  induction 1 as [|x cs Hx HN IH]; [reflexivity|].
  rewrite broadcast_trace_cons. cbn [enqueued existsb].
  rewrite enqueued_app, IH, (Nat.eqb_sym c x).
  destruct (accept x); cbn [enqueued app];
    (destruct (Nat.eqb_spec x c) as [->|Hne]; [|reflexivity]).
  all: cbn [orb]; destruct (existsb (Nat.eqb c) cs) eqn:E; [|reflexivity];
    apply existsb_exists in E as (y & Hy & Hy'); apply Nat.eqb_eq in Hy';
    now subst y.
Qed.

Lemma delivered_broadcast accept data c cs :
  NoDup cs ->
  delivered c (broadcast_trace accept data cs)
  = if existsb (Nat.eqb c) cs && accept c then [data] else [].
Proof.
  induction 1 as [|x cs Hx HN IH]; [reflexivity|].
  rewrite broadcast_trace_cons. cbn [existsb].
  rewrite (Nat.eqb_sym c x).
  assert (Hnot : x = c -> existsb (Nat.eqb c) cs = false).
  { intros ->. destruct (existsb (Nat.eqb c) cs) eqn:E; [|reflexivity].
    apply existsb_exists in E as (y & Hy & Hy'). apply Nat.eqb_eq in Hy'.
    now subst y. }
  destruct (accept x) eqn:Ha; cbn [delivered app]; rewrite IH;
    (destruct (Nat.eqb_spec x c) as [E|Hne];
     [rewrite (Hnot E); subst x; rewrite Ha | ]); reflexivity.
Qed.

(** [fetch] never throws: its one enqueue, the catch-up, is made on the
    stream it has just created, and is accepted. *)
Lemma fetch_completes path w :
  (exists r, fst (fst (fetch path w)) = Normal r)
  /\ (forall c data ok, In (EvEnqueue c data ok) (snd (fetch path w)) ->
                        ok = true /\ c = next_client w).
Proof.
  destruct (String.eqb_spec path "/events") as [->|Hp].
  - destruct w as [c0 cl h s ts nt nc ls]. rewrite fetch_events_eq.
    cbv zeta. case_ifs; (split; [eexists; reflexivity|]);
      intros c data ok Hin; cbn [snd next_client] in Hin |- *;
      apply in_app_or in Hin as [Hin|Hin];
      try (destruct c0; cbn in Hin; intuition discriminate);
      cbn in Hin; intuition (try discriminate);
      match goal with H : EvEnqueue _ _ _ = EvEnqueue _ _ _ |- _ =>
        now injection H as <- _ <- end.
  - destruct (fetch_other_path path w Hp) as [-> | ->];
      (split; [eexists; reflexivity | intros c data ok []]).
Qed.

(** C4. In a tick, an enqueue that throws is caught inside the loop: the
    callback completes normally, the subscriber whose enqueue threw is
    deleted from the set and logged, every subscriber of the set gets its
    one enqueue call whatever happened to the others, and exactly those
    whose enqueue threw are gone afterwards; the loop keeps running exactly
    when some subscriber is left.  The catch-up enqueue on attach is made on
    the stream the request has just created: it is always accepted, and
    [fetch] never throws. *)
Theorem tick_delivery_failure_isolated (stored : option Number) (ops : list Op)
    (accept : client -> bool) :
  let w := fst (run ops (constructor stored)) in
  let r := interval_callback accept true w in
  let v := Number_succ (to_number (counter w)) in
  (forall path,
     (exists re, fst (fst (fetch path w)) = Normal re)
     /\ (forall c data ok, In (EvEnqueue c data ok) (snd (fetch path w)) ->
                           ok = true /\ c = next_client w))
  /\ fst (fst r) = Normal tt
  /\ clients (snd (fst r)) = filter accept (clients w)
  /\ running (snd (fst r)) = negb (is_empty (filter accept (clients w)))
  /\ (exists tail,
        snd r = EvPut v :: broadcast_trace accept (sse_record v) (clients w)
                  ++ tail
        /\ quiet tail = true)
  /\ (forall c, In c (clients w) ->
        enqueued c (snd r) = [sse_record v]
        /\ delivered c (snd r) = (if accept c then [sse_record v] else [])
        /\ (accept c = true -> In c (clients (snd (fst r))))
        /\ (accept c = false ->
            ~ In c (clients (snd (fst r)))
            /\ In (EvConsoleError c) (snd r))).
Proof.
  intros w r v. pose proof (Inv_reachable stored ops) as HI. fold w in HI.
  destruct (tick_trace accept w) as (tail & Ht & Hq & Hn & _ & _ & Hcl & _).
  fold r v in Ht, Hn, Hcl.
  split; [intros path; apply fetch_completes|].
  split; [exact Hn|]. split; [exact Hcl|].
  split; [rewrite <- Hcl; now apply running_iff, Inv_tick|].
  split; [now exists tail|].
  intros c Hc. rewrite Ht, Hcl.
  apply quiet_facts in Hq as (_ & He & Hd & _).
  assert (Hex : existsb (Nat.eqb c) (clients w) = true).
  { apply existsb_exists. exists c. now rewrite Nat.eqb_refl. }
  cbn [enqueued delivered].
  rewrite enqueued_app, delivered_app, He, Hd, !app_nil_r.
  rewrite enqueued_broadcast, delivered_broadcast, Hex
    by now destruct HI.
  cbn [andb]. split; [reflexivity|]. split; [reflexivity|]. split.
  - intros Ha. apply filter_In. now split.
  - intros Ha. split.
    { intros Hin. apply filter_In in Hin as [_ Hin]. congruence. }
    right. apply in_or_app. left.
    clear - Hc Ha. induction (clients w) as [|x cs IH]; [easy|].
    rewrite broadcast_trace_cons. destruct Hc as [->|Hc].
    + rewrite Ha. right. now left.
    + right. apply in_or_app. right. now apply IH.
Qed.

(** Two subscribers, the first one's channel broken: the tick still reaches
    the second one, and only the first is removed. *)
Lemma tick_delivery_failure_isolated_witness :
  let w := fst (run [OpFetch "/events";
                     OpFetch "/events"] (constructor None)) in
  let r := interval_callback (fun c => negb (c =? 0)) true w in
  In 0 (clients w) /\ In 1 (clients w)
  /\ enqueued 1 (snd r) = [sse_record (Number_of_N 1)]
  /\ delivered 1 (snd r) = [sse_record (Number_of_N 1)]
  /\ In 1 (clients (snd (fst r)))
  /\ ~ In 0 (clients (snd (fst r))).
Proof.
  pose proof (tick_delivery_failure_isolated None
                [OpFetch "/events"; OpFetch "/events"]
                (fun c => negb (c =? 0))) as H.
  cbv zeta in H. destruct H as (_ & _ & _ & _ & _ & H).
  assert (H0 : In 0 [0; 1]) by (simpl; auto).
  assert (H1 : In 1 [0; 1]) by (simpl; auto).
  destruct (H 0 H0) as (_ & _ & _ & Hgone).
  destruct (H 1 H1) as (He & Hd & Hkeep & _).
  split; [exact H0|]. split; [exact H1|]. split; [exact He|].
  split; [exact Hd|]. split; [now apply Hkeep | now apply Hgone].
Defined.
(** ** The first subscriber *)

Lemma on_abort_facts x w :
  quiet (snd (on_abort x w)) = true
  /\ counter (snd (fst (on_abort x w))) = counter w
  /\ next_client (snd (fst (on_abort x w))) = next_client w.
Proof.
  destruct w as [c cl h s ts nt nc ls]. rewrite on_abort_eq.
  destruct (is_empty _); [|easy].
  match goal with |- context [stopCounting ?w] =>
    destruct (stopCounting_facts w) as (_ & Hq & Hc & _ & _ & Hnc) end.
  now rewrite Hq, Hc, Hnc.
Qed.

Lemma step_abort_facts x w :
  quiet (snd (step (OpAbort x) w)) = true
  /\ counter (fst (step (OpAbort x) w)) = counter w
  /\ next_client (fst (step (OpAbort x) w)) = next_client w.
Proof.
  cbn [step]. destruct (existsb _ _); [|easy].
  destruct (on_abort_facts x (set_listeners (Set_delete x (listeners w)) w))
    as (Hq & Hc & Hn).
  unfold outcome. cbn [fst snd]. now rewrite Hq, Hc, Hn.
Qed.

(** [fetch] only ever enqueues on the channel it has just created. *)
Lemma fetch_enqueues_new_only path w c :
  c <> next_client w -> enqueued c (snd (fetch path w)) = [].
Proof.
  intros Hc.
  destruct (fetch_cases path w) as [->|[(_ & ->)|(_ & _ & _ & ->)]];
    [|reflexivity|reflexivity].
  destruct w as [c0 cl h s ts nt nc ls]. rewrite fetch_events_eq. cbv zeta.
  cbn in Hc. apply Nat.eqb_neq in Hc. rewrite Nat.eqb_sym in Hc.
  case_ifs;
    destruct c0; cbn; now rewrite ?Hc.
Qed.

Lemma next_client_fetch path w :
  next_client w <= next_client (snd (fst (fetch path w))).
Proof.
  destruct (fetch_cases path w) as [->|[(_ & ->)|(_ & _ & _ & ->)]];
    [|cbn; lia|cbn; lia].
  destruct (fetch_events_facts w) as (_ & _ & _ & _ & _ & ->). lia.
Qed.

Lemma no_enqueue_without_tick ops : forall w c,
  forallb (fun op => negb (is_timer op)) ops = true ->
  c < next_client w ->
  enqueued c (snd (run ops w)) = [].
Proof.
  induction ops as [|op ops IH]; intros w c Hops Hc; [reflexivity|].
  cbn [forallb] in Hops. apply andb_true_iff in Hops as [Hop Hops].
  cbn [run].
  assert (H1 : enqueued c (snd (step op w)) = []
               /\ c < next_client (fst (step op w))).
  { destruct op as [path|x|i accept ok]; [| |discriminate].
    - cbn [step outcome fst snd]. split.
      + apply fetch_enqueues_new_only. lia.
      + pose proof (next_client_fetch path w). lia.
    - destruct (step_abort_facts x w) as (Hq & _ & Hn).
      apply quiet_facts in Hq as (_ & He & _). rewrite He, Hn. now split. }
  destruct (step op w) as [w1 t1]. cbn [fst snd] in H1. destruct H1 as [E1 L1].
  specialize (IH w1 c Hops L1). destruct (run ops w1) as [w2 t2].
  cbn [snd] in *. now rewrite enqueued_app, E1, IH.
Qed.

Lemma fetch_events_first w :
  Inv w ->
  clients w = [] ->
  fetch "/events" w
  = (Normal (stream_response (next_client w)),
     mkWorld (loaded (counter w) (storage w)) [next_client w]
       (Some (next_timer w))
       (storage w) [next_timer w] (S (next_timer w)) (S (next_client w))
       (listeners w ++ [next_client w]),
     load_trace (counter w)
       ++ [EvSetInterval (next_timer w) 1000; EvListen (next_client w)]).
Proof.
  intros HI Hcl. destruct w as [c cl h s ts nt nc ls]. cbn in Hcl. subst cl.
  rewrite fetch_events_eq. destruct HI. unfold durable in *. cbn in *.
  assert (h = None) by now apply inv_running0. subst h ts. cbn.
  now destruct c as [n|].
Qed.

(** While no put is rejected, the counter of a reachable world is the value
    its store reflects. *)
Lemma synced_reachable stored ops :
  puts_ok ops = true -> synced (fst (run ops (constructor stored))).
Proof.
  intros Hok.
  now destruct (committed_run ops (constructor stored) (Inv_constructor _)
                  (synced_constructor _) Hok).
Qed.

Lemma loaded_synced w :
  synced w -> loaded (counter w) (storage w) = Some (durable w).
Proof.
  intros HS. destruct (counter w) as [n|] eqn:E; cbn [loaded]; [|reflexivity].
  now rewrite (HS n E).
Qed.

(** C5. A request on [/events] that finds the subscriber set empty enqueues
    nothing: it loads the counter if need be, starts the timer and registers
    its abort listener.  The counter then holds the value [n] it had, or the
    value the store reflects if it was not loaded; that is the value the
    store reflects whenever no put was rejected before.  No operation other
    than a firing of the timer enqueues anything on the new subscriber's
    channel, and the first firing puts the successor of [n], which is [n]
    plus one below 2^53, and enqueues its record there; if that put is
    rejected the firing enqueues nothing. *)
Theorem first_subscriber_waits_for_tick (stored : option Number)
    (ops : list Op) :
  let w := fst (run ops (constructor stored)) in
  clients w = [] ->
  let c := next_client w in
  let r := fetch "/events" w in
  let w1 := snd (fst r) in
  let n := to_number (loaded (counter w) (storage w)) in
  fst (fst r) = Normal (stream_response c)
  /\ snd r = load_trace (counter w)
               ++ [EvSetInterval (next_timer w) 1000; EvListen c]
  /\ (forall c', enqueued c' (snd r) = [])
  /\ (clients w1 = [c] /\ counter w1 = Some n
      /\ intervalId w1 = Some (next_timer w) /\ running w1 = true)
  /\ (counter w = None \/ puts_ok ops = true -> n = durable w)
  /\ (forall mid,
        forallb (fun op => negb (is_timer op)) mid = true ->
        enqueued c (snd (run mid w1)) = [])
  /\ (forall accept', exists tail,
        snd (step (OpTimer (next_timer w) accept' true) w1)
        = EvPut (Number_succ n)
            :: EvEnqueue c (sse_record (Number_succ n)) (accept' c) :: tail
        /\ quiet tail = true)
  /\ ((value n < LIMIT)%N -> value (Number_succ n) = (value n + 1)%N)
  /\ (forall accept',
        snd (step (OpTimer (next_timer w) accept' false) w1)
        = [EvPutRejected (Number_succ n)]).
Proof.
  intros w Hcl c r w1 n.
  pose proof (Inv_reachable stored ops) as HI. fold w in HI.
  pose proof (fetch_events_first w HI Hcl) as Hf. fold r c in Hf.
  assert (HI1 : Inv w1) by now apply Inv_fetch.
  assert (Hn : loaded (counter w) (storage w) = Some n)
    by (unfold n; now destruct (counter w)).
  subst w1. rewrite Hf. cbn [fst snd].
  split; [reflexivity|]. split; [reflexivity|]. split.
  { intros c'. rewrite enqueued_app.
    now destruct (counter w). }
  split.
  { repeat split; [exact Hn|]. unfold running. cbn.
    rewrite Nat.eqb_refl. destruct HI.
    destruct (next_timer w); [lia | reflexivity]. }
  split.
  { intros [Hnone|Hok]; unfold n.
    - now rewrite Hnone.
    - rewrite (loaded_synced w); [reflexivity|].
      now apply synced_reachable. }
  split.
  { intros mid Hmid. apply no_enqueue_without_tick; [exact Hmid|].
    cbn. unfold c. lia. }
  split.
  { intros accept'. cbn [step timers existsb]. rewrite Nat.eqb_refl.
    cbn [orb].
    match goal with |- context [interval_callback accept' true ?w1] =>
      destruct (tick_trace accept' w1) as (tail & Ht & Hq & _) end.
    unfold outcome. cbn [snd]. rewrite Ht. cbn [counter clients].
    rewrite Hn. cbn [to_number].
    rewrite broadcast_trace_cons.
    exists ((if accept' c then [] else [EvConsoleError c]) ++ tail).
    split; [cbn [broadcast_trace flat_map app]; now rewrite app_nil_r|].
    unfold quiet. rewrite forallb_app. fold (quiet tail). rewrite Hq.
    now destruct (accept' c). }
  split; [apply value_succ_below|].
  intros accept'. cbn [step timers existsb]. rewrite Nat.eqb_refl.
  cbn [orb]. rewrite interval_callback_rejected. unfold outcome.
  cbn [fst snd]. now rewrite Hn.
Qed.

(** Fresh session: the first subscriber gets nothing on attach and
    [data: 1\n\n] from the first tick. *)
Lemma first_subscriber_waits_for_tick_witness :
  let w := constructor None in
  clients w = []
  /\ snd (fetch "/events" w)
     = [EvGet; EvSetInterval 1 1000; EvListen 0]
  /\ enqueued 0 (snd (run [OpFetch "/"; OpFetch "/nope"]
                        (snd (fst (fetch "/events" w))))) = []
  /\ (exists tail,
       snd (step (OpTimer 1 accept_all true) (snd (fst (fetch "/events" w))))
       = EvPut (Number_succ Number_zero)
           :: EvEnqueue 0 (sse_record (Number_succ Number_zero)) true :: tail
       /\ quiet tail = true)
  /\ value (Number_succ Number_zero) = 1%N
  /\ sse_record (Number_succ Number_zero)
     = [Byte.x64; Byte.x61; Byte.x74; Byte.x61; Byte.x3a; Byte.x20;
        Byte.x31; Byte.x0a; Byte.x0a].
Proof.
  pose proof (first_subscriber_waits_for_tick None [] eq_refl) as H.
  cbv zeta in H. destruct H as (_ & H1 & _ & _ & _ & H2 & H3 & H4 & _).
  split; [reflexivity|]. split; [exact H1|]. split.
  - apply H2. reflexivity.
  - split; [exact (H3 accept_all)|]. split; [apply H4; reflexivity|].
    reflexivity.
Defined.
(** ** The wire record determines the value *)

Lemma append_length (a s : string) :
  String.length (a ++ s) = String.length a + String.length s.
Proof. induction a as [|x a IH]; simpl; [reflexivity | now rewrite IH]. Qed.

Lemma append_inv_tail (a b s : string) :
  (a ++ s = b ++ s)%string -> a = b.
Proof.
  intros H.
  assert (HL : String.length a = String.length b).
  { apply (f_equal String.length) in H. rewrite !append_length in H. lia. }
  clear - H HL. revert b H HL.
  induction a as [|x a IH]; intros [|y b] H HL; try discriminate.
  - reflexivity.
  - simpl in H, HL. injection H as -> H. f_equal. apply IH; [exact H | lia].
Qed.

Lemma number_to_string_inj a b :
  number_to_string a = number_to_string b -> a = b.
Proof.
  unfold number_to_string. intros H.
  assert (Hn : forall n, N.to_uint n <> Decimal.Nil).
  { intros [|p]; [discriminate | apply DecimalPos.Unsigned.to_uint_nonnil]. }
  apply Number_ext, DecimalN.Unsigned.to_uint_inj.
  pose proof (NilZero.usu _ (Hn (value a))) as Ha.
  pose proof (NilZero.usu _ (Hn (value b))) as Hb.
  rewrite H in Ha. congruence.
Qed.

Lemma sse_record_inj a b : sse_record a = sse_record b -> a = b.
Proof.
  unfold sse_record, sse_data, TextEncoder_encode. intros H.
  apply (f_equal string_of_list_byte) in H.
  rewrite !string_of_list_byte_of_string in H.
  cbn [template_of_counter String.append] in H.
  injection H as H. apply append_inv_tail in H.
  now apply number_to_string_inj.
Qed.


(** ** Monotonicity *)

Lemma counter_step op w :
  (value (to_number (counter w))
   <= value (to_number (counter (fst (step op w)))))%N
  /\ next_client w <= next_client (fst (step op w)).
Proof.
  destruct op as [path|x|i accept ok].
  - cbn [step outcome fst]. split; [|apply next_client_fetch].
    destruct (fetch_cases path w) as [->|[(_ & ->)|(_ & _ & _ & ->)]];
      [|cbn; lia|cbn; lia].
    destruct (fetch_events_facts w) as (_ & _ & _ & -> & _).
    destruct (counter w); cbn; lia.
  - destruct (step_abort_facts x w) as (_ & -> & ->). lia.
  - cbn [step]. destruct (existsb _ _); [|cbn; lia].
    unfold outcome. cbn [fst]. destruct ok.
    + destruct (tick_trace accept w) as (_ & _ & _ & _ & Hc & _ & _ & Hn).
      rewrite Hc, Hn. cbn [to_number]. split; [apply value_succ_le | lia].
    + destruct (tick_rejected accept w) as (_ & _ & Hc & _ & _ & Hn & _).
      rewrite Hc, Hn. cbn [to_number]. split; [apply value_succ_le | lia].
Qed.



Lemma above_at_least w c v :
  above w c v -> (value (to_number (counter w)) <= value v)%N.
Proof. unfold above. destruct (c <? next_client w); lia. Qed.







(** * Further properties *)

(** ** Path segments in the worker *)

Lemma split_not_nil s : Worker.split s <> [].
Proof.
  destruct s as [|c s]; simpl; [discriminate|].
  destruct (Ascii.eqb c "/"); [discriminate|].
  destruct (Worker.split s); discriminate.
Qed.

Lemma split_no_slash s :
  Forall (fun p => has_slash p = false) (Worker.split s).
Proof.
  induction s as [|c s IH]; simpl; [repeat constructor|].
  destruct (Ascii.eqb c "/") eqn:Ec; [now constructor|].
  destruct (Worker.split s) as [|seg segs]; [repeat constructor; simpl; now rewrite Ec|].
  inversion IH; subst. constructor; [simpl; now rewrite Ec | assumption].
Qed.

Lemma split_app_slash a b :
  Worker.split (a ++ "/" ++ b) = Worker.split a ++ Worker.split b.
Proof.
  induction a as [|c a IH]; [reflexivity|].
  cbn [String.append Worker.split] in IH |- *. rewrite IH.
  destruct (Ascii.eqb c "/"); [reflexivity|].
  pose proof (split_not_nil a).
  now destruct (Worker.split a).
Qed.

Lemma split_segment s : has_slash s = false -> Worker.split s = [s].
Proof.
  induction s as [|c s IH]; [reflexivity|]. simpl. intros H.
  apply orb_false_iff in H as [Hc Hs]. now rewrite Hc, (IH Hs).
Qed.

Lemma parts_app_slash a b :
  Worker.parts (a ++ "/" ++ b) = Worker.parts a ++ Worker.parts b.
Proof. unfold Worker.parts. now rewrite split_app_slash, filter_app. Qed.

Lemma parts_segment s : is_segment s = true -> Worker.parts s = [s].
Proof.
  unfold is_segment, Worker.parts. intros H.
  apply andb_true_iff in H as [Hn Hs]. apply negb_true_iff in Hs.
  rewrite (split_segment s Hs). simpl. now rewrite Hn.
Qed.

Lemma parts_are_segments path :
  Forall (fun p => is_segment p = true) (Worker.parts path).
Proof.
  unfold Worker.parts, is_segment. apply Forall_forall. intros p Hp.
  apply filter_In in Hp as [Hp Hn]. rewrite Hn.
  pose proof (split_no_slash path) as H. rewrite Forall_forall in H.
  now rewrite (H p Hp).
Qed.

Lemma parts_nil_iff path :
  Worker.parts path = [] <-> only_slashes path = true.
Proof.
  unfold Worker.parts. induction path as [|c s IH]; [easy|].
  cbn [Worker.split only_slashes].
  destruct (Ascii.eqb c "/"); cbn [andb filter String.eqb negb]; [exact IH|].
  pose proof (split_not_nil s).
  destruct (Worker.split s); [contradiction|]. cbn. easy.
Qed.

Lemma parts_join segs :
  Forall (fun p => is_segment p = true) segs ->
  Worker.parts (String.concat "/" segs) = segs.
Proof.
  induction 1 as [|s segs Hs HF IH]; [reflexivity|].
  destruct segs as [|s' segs'].
  - now apply parts_segment.
  - change (String.concat "/" (s :: s' :: segs'))
      with (s ++ "/" ++ String.concat "/" (s' :: segs'))%string.
    now rewrite parts_app_slash, IH, (parts_segment s Hs).
Qed.

Lemma has_slash_app a b : has_slash (a ++ b) = has_slash a || has_slash b.
Proof.
  induction a as [|c a IH]; [reflexivity|]. simpl.
  now rewrite IH, orb_assoc.
Qed.

Lemma segment_not_empty s : is_segment s = true -> s <> "".
Proof. intros H ->. discriminate. Qed.

Lemma unknown_path_404 path w :
  path <> "/" -> path <> "" -> path <> "/events" ->
  fetch path w = (Normal not_found_response, w, []).
Proof.
  intros H1 H2 H3.
  destruct (fetch_cases path w) as [E|[([E|E] & _)|(_ & _ & _ & E)]];
    now try contradiction.
Qed.

(** ** Routing *)

Lemma scheme_rest_app a b :
  Worker.scheme_rest a = true -> Worker.scheme_rest (a ++ b) = true.
Proof.
  induction a as [|c a IH]; [discriminate|].
  cbn [Worker.scheme_rest String.append]. intros H.
  apply orb_true_iff in H as [H|H]; [now rewrite H|].
  apply andb_true_iff in H as [H1 H2].
  rewrite H1, (IH H2). apply orb_true_r.
Qed.

Lemma has_scheme_app a b :
  Worker.has_scheme a = true -> Worker.has_scheme (a ++ b) = true.
Proof.
  destruct a as [|c a]; [discriminate|].
  cbn [Worker.has_scheme String.append]. intros H.
  apply andb_true_iff in H as [H1 H2].
  now rewrite H1, (scheme_rest_app a b H2).
Qed.

(** X1. For a request whose URL has an origin that is itself a URL prefix
    (a scheme and what follows, as [https://host]), the root [/] is
    answered with a 302 redirect to [origin/uuid] without reaching any
    object; a request for the path of that location is forwarded to the
    object named [uuid] with pathname [/], which serves the page and leaves
    the object as it was.  When the origin is the text [null] (the only
    case in which the pathname can be empty) the location [null/uuid] is
    not a URL and the redirect throws: the worker returns no response. *)
Theorem root_redirect_reaches_page (uuid origin : string)
    (obj : option string -> World) :
  is_segment uuid = true ->
  Worker.has_scheme origin = true ->
  Worker.fetch uuid origin obj "/"
  = Worker.Redirected
      (Normal (mkResponse 302 [("Location", origin ++ "/" ++ uuid)%string]
                 (BodyText "")))
  /\ (forall uuid',
        Worker.fetch uuid' origin obj ("/" ++ uuid)
        = Worker.Forwarded (Some uuid) "/"
            (Normal page_response, obj (Some uuid), []))
  /\ (forall path, path = "/" \/ path = "" ->
        Worker.fetch uuid "null" obj path = Worker.Redirected Throw).
Proof.
  intros Hu Ho. split; [|split].
  - unfold Worker.fetch, Worker.Response_redirect. cbn [String.eqb orb].
    rewrite Ascii.eqb_refl. cbn [orb].
    now rewrite (has_scheme_app origin ("/" ++ uuid) Ho).
  - intros uuid'. unfold Worker.fetch.
    pose proof (segment_not_empty uuid Hu) as Hne.
    assert (Hp : Worker.parts ("/" ++ uuid) = [uuid]).
    { change ("/" ++ uuid)%string with ("" ++ "/" ++ uuid)%string.
      rewrite parts_app_slash. now rewrite (parts_segment uuid Hu). }
    rewrite Hp. destruct uuid as [|c u]; [contradiction|]. reflexivity.
  - now intros path [-> | ->].
Qed.

Lemma root_redirect_reaches_page_witness :
  Worker.fetch "0b1c" "https://h" (fun _ => constructor None) "/"
  = Worker.Redirected
      (Normal (mkResponse 302 [("Location", "https://h/0b1c")]
                 (BodyText "")))
  /\ Worker.fetch "ffff" "https://h" (fun _ => constructor None) "/0b1c"
     = Worker.Forwarded (Some "0b1c") "/"
         (Normal page_response, constructor None, [])
  /\ Worker.fetch "0b1c" "null" (fun _ => constructor None) ""
     = Worker.Redirected Throw.
Proof.
  destruct (root_redirect_reaches_page "0b1c" "https://h"
              (fun _ => constructor None) eq_refl eq_refl) as (H1 & H2 & H3).
  split; [exact H1|]. split; [apply (H2 "ffff") | apply H3; now right].
Defined.

Lemma newPath_cases ps :
  Forall (fun p => is_segment p = true) ps ->
  match tl ps with
  | [] => Worker.newPath ps = "/"
  | [seg] => Worker.newPath ps = ("/" ++ seg)%string /\ is_segment seg = true
  | s1 :: s2 :: rest =>
      exists tail, Worker.newPath ps = String "/" tail
                   /\ tail <> "" /\ has_slash tail = true
  end.
Proof.
  intros HF. destruct ps as [|id [|s1 [|s2 rest]]]; try reflexivity.
  - inversion HF as [|? ? _ HF1]; subst. inversion HF1; subst.
    split; [reflexivity | assumption].
  - inversion HF as [|? ? _ HF1]; subst. inversion HF1 as [|? ? H1 _]; subst.
    exists (String.concat "/" (s1 :: s2 :: rest)). split; [reflexivity|].
    change (String.concat "/" (s1 :: s2 :: rest))
      with (s1 ++ "/" ++ String.concat "/" (s2 :: rest))%string.
    split.
    + apply segment_not_empty in H1. now destruct s1.
    + rewrite has_slash_app. cbn [String.append has_slash].
      rewrite Ascii.eqb_refl. cbn. apply orb_true_r.
Qed.

(** X2. What a forwarded request gets depends only on the segments after
    the first: none gives the page, the single segment [events] attaches to
    the stream, and anything else (another name, or more than one segment)
    gets the object's 404 with the object unchanged.  The object is the one
    named by the first segment. *)
Theorem forwarded_request_dispatch (uuid origin : string)
    (obj : option string -> World) (path : string) :
  path <> "/" -> path <> "" ->
  let ps := Worker.parts path in
  let w := obj (hd_error ps) in
  exists sub,
    Worker.fetch uuid origin obj path
    = Worker.Forwarded (hd_error ps) sub (fetch sub w)
    /\ match tl ps with
       | [] => fetch sub w = (Normal page_response, w, [])
       | [seg] =>
           if (seg =? "events")%string
           then fetch sub w = fetch "/events" w
           else fetch sub w = (Normal not_found_response, w, [])
       | _ :: _ :: _ =>
           fetch sub w = (Normal not_found_response, w, [])
       end.
Proof.
  intros H1 H2 ps w. exists (Worker.newPath ps). split.
  - unfold Worker.fetch.
    apply String.eqb_neq in H1, H2. now rewrite H1, H2.
  - pose proof (newPath_cases ps (parts_are_segments path)) as Hc.
    destruct (tl ps) as [|seg [|s2 rest]].
    + now rewrite Hc.
    + destruct Hc as [-> Hseg].
      destruct (String.eqb_spec seg "events") as [->|Hne]; [reflexivity|].
      apply segment_not_empty in Hseg.
      apply unknown_path_404; [now destruct seg | discriminate|].
      intros [= E]. contradiction.
    + destruct Hc as (tail & -> & Hne & Hs).
      apply unknown_path_404; [now destruct tail | discriminate|].
      intros [= ->]. discriminate.
Qed.

Lemma forwarded_request_dispatch_witness :
  exists sub,
    Worker.fetch "u" "o" (fun _ => constructor None) "/abc//events/"
    = Worker.Forwarded (Some "abc") sub
        (fetch sub (constructor None))
    /\ fetch sub (constructor None)
       = fetch "/events" (constructor None).
Proof.
  exact (forwarded_request_dispatch "u" "o" (fun _ => constructor None) "/abc//events/"
           ltac:(discriminate) ltac:(discriminate)).
Defined.

(** X3. The parts of a path are exactly its non-empty runs between slashes:
    each part is non-empty and has no slash, empty runs (a leading, doubled
    or trailing slash) contribute nothing, and joining parts with slashes
    and splitting again gives the parts back. *)
Theorem path_parts_roundtrip :
  (forall path, Forall (fun p => is_segment p = true) (Worker.parts path))
  /\ (forall a b,
        Worker.parts (a ++ "/" ++ b) = Worker.parts a ++ Worker.parts b)
  /\ (forall segs,
        Forall (fun p => is_segment p = true) segs ->
        Worker.parts (String.concat "/" segs) = segs
        /\ Worker.parts ("/" ++ String.concat "/" segs) = segs).
Proof.
  split; [exact parts_are_segments|]. split; [exact parts_app_slash|].
  intros segs HF. split; [now apply parts_join|].
  change ("/" ++ String.concat "/" segs)%string
    with ("" ++ "/" ++ String.concat "/" segs)%string.
  rewrite parts_app_slash. now apply parts_join.
Qed.

Lemma path_parts_roundtrip_witness :
  Worker.parts (String.concat "/" ["s1"; "events"]) = ["s1"; "events"]
  /\ Worker.parts ("/" ++ String.concat "/" ["s1"; "events"])
     = ["s1"; "events"].
Proof.
  destruct path_parts_roundtrip as (_ & _ & H).
  apply H. repeat constructor.
Defined.

(** X4. The pathname handed to the object always starts with a slash (so it
    is never empty), and its parts are the parts of the request path
    without the first one: forwarding strips exactly the session segment. *)
Theorem forwarded_path_strips_first_segment (path : string) :
  let sub := Worker.newPath (Worker.parts path) in
  (exists tail, sub = String "/" tail)
  /\ Worker.parts sub = tl (Worker.parts path).
Proof.
  cbv zeta. pose proof (parts_are_segments path) as HF.
  destruct (Worker.parts path) as [|id [|s1 rest]];
    [split; [now exists "" | reflexivity] ..|].
  inversion HF as [|? ? _ HF1]; subst.
  split; [eexists; reflexivity|].
  change (Worker.newPath (id :: s1 :: rest))
    with ("" ++ "/" ++ String.concat "/" (s1 :: rest))%string.
  rewrite parts_app_slash. now apply parts_join.
Qed.

(** X5. A path made of slashes only, other than [/] itself, has no first
    segment: the session name passed to [idFromName] is [undefined] and the
    request is forwarded with pathname [/].  Every other forwarded path
    names a session. *)
Theorem slash_only_path_has_no_id (uuid origin : string)
    (obj : option string -> World) (path : string) :
  path <> "/" -> path <> "" ->
  (hd_error (Worker.parts path) = None <-> only_slashes path = true)
  /\ (only_slashes path = true ->
      Worker.fetch uuid origin obj path
      = Worker.Forwarded None "/" (Normal page_response, obj None, [])).
Proof.
  intros H1 H2.
  assert (Hiff : hd_error (Worker.parts path) = None
                 <-> only_slashes path = true).
  { rewrite <- parts_nil_iff. now destruct (Worker.parts path). }
  split; [exact Hiff|]. intros Ho. unfold Worker.fetch.
  apply String.eqb_neq in H1, H2. rewrite H1, H2. cbn [orb].
  apply parts_nil_iff in Ho. now rewrite Ho.
Qed.

Lemma slash_only_path_has_no_id_witness :
  (hd_error (Worker.parts "//") = None <-> only_slashes "//" = true)
  /\ Worker.fetch "u" "o" (fun _ => constructor None) "//"
     = Worker.Forwarded None "/" (Normal page_response, constructor None, []).
Proof.
  destruct (slash_only_path_has_no_id "u" "o" (fun _ => constructor None) "//"
              ltac:(discriminate) ltac:(discriminate)) as [H1 H2].
  split; [exact H1 | now apply H2].
Defined.

(** ** The subscriber set, operation by operation *)

Lemma Set_delete_absent c cl : ~ In c cl -> Set_delete c cl = cl.
Proof.
  intros H. unfold Set_delete. induction cl as [|a l IH]; [reflexivity|].
  simpl. destruct (Nat.eqb_spec a c) as [->|Hne].
  - exfalso. apply H. now left.
  - simpl. f_equal. apply IH. intros Hin. apply H. now right.
Qed.

Lemma clients_step op w :
  Inv w ->
  clients (fst (step op w))
  = match op with
    | OpFetch path =>
        if (path =? "/events")%string then clients w ++ [next_client w]
        else clients w
    | OpAbort x =>
        if existsb (Nat.eqb x) (listeners w) then Set_delete x (clients w)
        else clients w
    | OpTimer i accept ok =>
        if existsb (Nat.eqb i) (timers w) && ok
        then filter accept (clients w)
        else clients w
    end.
Proof.
  intros HI. destruct op as [path|x|i accept ok]; cbn [step].
  - destruct (String.eqb_spec path "/events") as [->|Hp].
    + destruct w as [c cl h s ts nt nc ls]. rewrite fetch_events_eq.
      cbv zeta. rewrite (Set_add_fresh nc cl) by now destruct HI.
      now case_ifs.
    + now destruct (fetch_other_path path w Hp) as [-> | ->].
  - destruct (existsb _ _); [|reflexivity].
    destruct w as [c cl h s ts nt nc ls]. unfold set_listeners.
    cbn [counter clients intervalId storage timers next_timer next_client
         listeners].
    rewrite on_abort_eq. destruct (Set_delete x cl) eqn:E; cbn [is_empty].
    + match goal with |- context [stopCounting ?w] =>
        destruct (stopCounting_facts w) as (_ & _ & _ & _ & Hcl & _) end.
      unfold outcome. cbn [fst snd]. now rewrite Hcl.
    + reflexivity.
  - destruct (existsb _ _); [|reflexivity]. destruct ok; cbn [andb].
    + now destruct (tick_trace accept w)
        as (_ & _ & _ & _ & _ & _ & Hcl & _).
    + now destruct (tick_rejected accept w) as (_ & _ & _ & _ & Hcl & _).
Qed.

Lemma next_client_step op w :
  next_client w <= next_client (fst (step op w)).
Proof. apply counter_step. Qed.

(** ** Detached subscribers *)

Lemma enqueued_step_absent op w c :
  Inv w -> c < next_client w -> ~ In c (clients w) ->
  enqueued c (snd (step op w)) = []
  /\ ~ In c (clients (fst (step op w))).
Proof.
  intros HI Hlt Hnot. split.
  - destruct op as [path|x|i accept ok].
    + cbn [step outcome snd]. apply fetch_enqueues_new_only. lia.
    + destruct (step_abort_facts x w) as (Hq & _).
      now apply quiet_facts in Hq as (_ & He & _).
    + cbn [step]. destruct (existsb (Nat.eqb i) (timers w)); [|reflexivity].
      unfold outcome. cbn [snd]. destruct ok.
      2:{ now destruct (tick_rejected accept w) as (_ & -> & _). }
      destruct (tick_trace accept w) as (tail & Ht & Hq & _).
      rewrite Ht.
      apply quiet_facts in Hq as (_ & He & _).
      cbn [enqueued]. rewrite enqueued_app, He, app_nil_r.
      rewrite enqueued_broadcast by now destruct HI.
      destruct (existsb (Nat.eqb c) (clients w)) eqn:E; [|reflexivity].
      apply existsb_exists in E as (y & Hy & Hy').
      apply Nat.eqb_eq in Hy'. now subst y.
  - rewrite (clients_step op w HI).
    destruct op as [path|x|i accept ok].
    + destruct (path =? "/events")%string; [|exact Hnot].
      rewrite in_app_iff. intros [H|[H|[]]]; [contradiction | lia].
    + destruct (existsb _ _); [|exact Hnot].
      unfold Set_delete. intros H. apply filter_In in H as [H _].
      contradiction.
    + destruct (existsb _ _ && ok); [|exact Hnot].
      intros H. apply filter_In in H as [H _]. contradiction.
Qed.

Lemma absent_run ops : forall w c,
  Inv w -> c < next_client w -> ~ In c (clients w) ->
  enqueued c (snd (run ops w)) = []
  /\ ~ In c (clients (fst (run ops w))).
Proof.
  induction ops as [|op ops IH]; intros w c HI Hlt Hnot; [now split|].
  cbn [run]. pose proof (Inv_step op w HI) as HI1.
  destruct (enqueued_step_absent op w c HI Hlt Hnot) as [He Hn].
  pose proof (next_client_step op w) as Hnc.
  destruct (step op w) as [w1 t1]. cbn [fst snd] in *.
  assert (Hlt1 : c < next_client w1) by lia.
  destruct (IH w1 c HI1 Hlt1 Hn) as [IH1 IH2].
  destruct (run ops w1) as [w2 t2]. cbn [fst snd] in *.
  split; [now rewrite enqueued_app, He, IH1 | exact IH2].
Qed.

Lemma delivered_of_enqueued c t : enqueued c t = [] -> delivered c t = [].
Proof.
  induction t as [|e t IH]; [reflexivity|].
  destruct e as [| | |c' d b| | | |]; cbn [enqueued delivered]; try exact IH.
  destruct (c' =? c); [discriminate|]. destruct b; exact IH.
Qed.

(** X6. Once a subscriber is out of the set (after its abort, or after a
    tick whose enqueue on it threw), nothing is ever enqueued on its channel
    again, whatever happens later in the activation: a client object is
    never added back. *)
Theorem detached_never_enqueued (stored : option Number) (ops later : list Op)
    (c : client) :
  let w := fst (run ops (constructor stored)) in
  c < next_client w ->
  ~ In c (clients w) ->
  enqueued c (snd (run later w)) = []
  /\ delivered c (snd (run later w)) = []
  /\ ~ In c (clients (fst (run later w))).
Proof.
  intros w Hlt Hnot.
  pose proof (Inv_reachable stored ops) as HI. fold w in HI.
  destruct (absent_run later w c HI Hlt Hnot) as [He Hn].
  split; [exact He|]. split; [now apply delivered_of_enqueued | exact Hn].
Qed.

(** Two subscribers; the first aborts; the following ticks and attaches
    never touch its channel. *)
Lemma detached_never_enqueued_witness :
  let w := fst (run [OpFetch "/events";
                     OpFetch "/events"; OpAbort 0]
                  (constructor None)) in
  let later := [OpTimer 1 accept_all true; OpFetch "/events";
                OpTimer 1 accept_all true] in
  enqueued 0 (snd (run later w)) = []
  /\ delivered 0 (snd (run later w)) = []
  /\ ~ In 0 (clients (fst (run later w))).
Proof.
  apply (detached_never_enqueued None
           [OpFetch "/events"; OpFetch "/events";
            OpAbort 0]).
  - cbn. lia.
  - cbn. intros [H|[]]. discriminate.
Defined.

(** ** Puts *)

Lemma put_calls_app t1 t2 :
  put_calls (t1 ++ t2) = put_calls t1 + put_calls t2.
Proof.
  induction t1 as [|e t1 IH]; [reflexivity|].
  destruct e; simpl; now rewrite IH.
Qed.

Lemma put_calls_quiet t : quiet t = true -> put_calls t = 0.
Proof.
  induction t as [|e t IH]; [reflexivity|]. simpl. intros H.
  apply andb_true_iff in H as [He Ht].
  destruct e; try discriminate; now apply IH.
Qed.

Lemma put_calls_broadcast accept data cs :
  put_calls (broadcast_trace accept data cs) = 0.
Proof.
  induction cs as [|x cs IH]; [reflexivity|].
  rewrite broadcast_trace_cons. cbn [put_calls]. rewrite put_calls_app, IH.
  now destruct (accept x).
Qed.

Lemma put_calls_fetch path w : put_calls (snd (fetch path w)) = 0.
Proof.
  destruct (String.eqb_spec path "/events") as [->|Hp].
  - destruct w as [c cl h s ts nt nc ls]. rewrite fetch_events_eq. cbv zeta.
    case_ifs; cbn [snd]; rewrite put_calls_app; now destruct c.
  - now destruct (fetch_other_path path w Hp) as [-> | ->].
Qed.

Lemma storage_fetch path w :
  storage (snd (fst (fetch path w))) = storage w.
Proof.
  destruct (String.eqb_spec path "/events") as [->|Hp].
  - now destruct (fetch_events_facts w) as (_ & _ & _ & _ & -> & _).
  - now destruct (fetch_other_path path w Hp) as [-> | ->].
Qed.

Lemma min_LIMIT_value (a : Number) : N.min (value a + 0) LIMIT = value a.
Proof. pose proof (value_le_LIMIT a). lia. Qed.

Lemma value_succ_min (a : Number) :
  value (Number_succ a) = N.min (value a + 1) LIMIT.
Proof.
  rewrite value_succ. pose proof (value_le_LIMIT a).
  destruct (N.ltb_spec (value a) LIMIT); lia.
Qed.

(** A timer that is live belongs to a session whose counter is loaded. *)
Lemma firing_current i w :
  Inv w -> existsb (Nat.eqb i) (timers w) = true ->
  counter w = Some (current w).
Proof.
  intros HI E. destruct (firing_loaded i w HI E) as (n & Hn).
  unfold current. now rewrite Hn.
Qed.

(** One operation adds to the counter, loaded or still to be loaded, as
    many units as it makes put calls, up to 2^53. *)
Lemma current_step op w :
  Inv w ->
  value (current (fst (step op w)))
  = N.min (value (current w) + N.of_nat (put_calls (snd (step op w)))) LIMIT.
Proof.
  intros HI. destruct op as [path|x|i accept ok].
  - cbn [step outcome fst snd]. rewrite put_calls_fetch.
    cbn [N.of_nat]. rewrite min_LIMIT_value. f_equal.
    destruct (String.eqb_spec path "/events") as [->|Hp].
    + destruct (fetch_events_facts w) as (_ & _ & _ & Hc & Hs & _).
      unfold current. rewrite Hc, Hs. now destruct (counter w).
    + now destruct (fetch_other_path path w Hp) as [-> | ->].
  - destruct (step_abort_state x w) as (Hc & Hs).
    destruct (step_abort_facts x w) as (Hq & _).
    rewrite (put_calls_quiet _ Hq). cbn [N.of_nat].
    rewrite min_LIMIT_value. unfold current. now rewrite Hc, Hs.
  - cbn [step]. destruct (existsb (Nat.eqb i) (timers w)) eqn:E.
    2:{ cbn [fst snd put_calls N.of_nat]. now rewrite min_LIMIT_value. }
    pose proof (firing_current i w HI E) as Hcur.
    unfold outcome. cbn [fst snd]. destruct ok.
    + destruct (tick_trace accept w) as (tail & Ht & Hq & _ & Hc & _).
      unfold current at 1. rewrite Ht, Hc, Hcur. cbn [loaded to_number].
      cbn [put_calls].
      rewrite put_calls_app, put_calls_broadcast, (put_calls_quiet _ Hq).
      apply value_succ_min.
    + destruct (tick_rejected accept w) as (_ & Ht & Hc & _).
      unfold current at 1. rewrite Ht, Hc, Hcur. cbn [loaded to_number].
      apply value_succ_min.
Qed.

Lemma current_run ops : forall w,
  Inv w ->
  value (current (fst (run ops w)))
  = N.min (value (current w) + N.of_nat (put_calls (snd (run ops w)))) LIMIT.
Proof.
  induction ops as [|op ops IH]; intros w HI.
  - cbn [run fst snd put_calls N.of_nat]. now rewrite min_LIMIT_value.
  - cbn [run]. pose proof (Inv_step op w HI) as HI1.
    pose proof (current_step op w HI) as Hd.
    destruct (step op w) as [w1 t1]. cbn [fst snd] in *.
    specialize (IH w1 HI1). destruct (run ops w1) as [w2 t2].
    cbn [fst snd] in *. rewrite put_calls_app, IH, Hd. lia.
Qed.

Lemma step_unloaded op w :
  Inv w ->
  counter (fst (step op w)) = None ->
  put_calls (snd (step op w)) = 0
  /\ storage (fst (step op w)) = storage w.
Proof.
  intros HI. destruct op as [path|x|i accept ok].
  - intros _. split; [apply put_calls_fetch | apply storage_fetch].
  - intros _. destruct (step_abort_facts x w) as (Hq & _).
    split; [now apply put_calls_quiet | apply step_abort_state].
  - cbn [step]. destruct (existsb _ _); [|easy].
    unfold outcome. cbn [fst snd]. destruct ok.
    + destruct (tick_trace accept w) as (_ & _ & _ & _ & Hc & _). congruence.
    + destruct (tick_rejected accept w) as (_ & _ & Hc & _). congruence.
Qed.

Lemma run_unloaded ops : forall w,
  Inv w ->
  counter (fst (run ops w)) = None ->
  put_calls (snd (run ops w)) = 0
  /\ storage (fst (run ops w)) = storage w.
Proof.
  induction ops as [|op ops IH]; intros w HI Hc; [easy|].
  cbn [run] in *. pose proof (step_unloaded op w HI) as H1.
  pose proof (Inv_step op w HI) as HI1.
  pose proof (reads_run ops (fst (step op w))) as Hr.
  destruct (step op w) as [w1 t1]. cbn [fst snd] in *.
  specialize (IH w1 HI1). destruct (run ops w1) as [w2 t2].
  cbn [fst snd] in *. destruct (IH Hc) as [IH1 IH2].
  unfold pending_load in Hr. rewrite Hc in Hr.
  destruct (counter w1); [lia|]. destruct (H1 eq_refl) as [H2 H3].
  rewrite put_calls_app, IH1, H2, IH2, H3. now split.
Qed.

(** X7. Over an activation the counter, once loaded, is the value the store
    reflected at the start plus the number of put calls made, completed or
    rejected, and at most 2^53: every tick that ran is accounted for, and
    nothing else changes the count.  The value the store reflects is never
    above the counter, and it is the counter when no put was rejected.
    While the counter is not loaded no put has been called and the store is
    as it was. *)
Theorem counter_counts_puts (stored : option Number) (ops : list Op) :
  let w := fst (run ops (constructor stored)) in
  let t := snd (run ops (constructor stored)) in
  match counter w with
  | Some n =>
      value n
      = N.min (value (or_zero stored) + N.of_nat (put_calls t)) LIMIT
      /\ (value (durable w) <= value n)%N
      /\ (puts_ok ops = true -> durable w = n)
  | None => put_calls t = 0 /\ storage w = stored
  end.
Proof.
  intros w t.
  pose proof (current_run ops (constructor stored) (Inv_constructor _)) as H.
  fold w t in H.
  change (current (constructor stored)) with (or_zero stored) in H.
  pose proof (Inv_reachable stored ops) as HI. fold w in HI.
  destruct (counter w) as [n|] eqn:Ec.
  - unfold current in H. rewrite Ec in H. cbn [loaded to_number] in H.
    split; [exact H|]. split; [now apply (inv_durable w HI)|].
    intros Hok. now apply (synced_reachable stored ops Hok).
  - now apply (run_unloaded ops (constructor stored) (Inv_constructor _)).
Qed.

(** A session restored at 7: after an attach and two ticks the counter is 9
    and so is the value the store reflects. *)
Lemma counter_counts_puts_witness :
  let ops := [OpFetch "/events"; OpTimer 1 accept_all true;
              OpTimer 1 accept_all true] in
  let w := fst (run ops (constructor (Some (Number_of_N 7)))) in
  counter w = Some (Number_of_N 9) /\ durable w = Number_of_N 9.
Proof.
  pose proof (counter_counts_puts (Some (Number_of_N 7))
                [OpFetch "/events"; OpTimer 1 accept_all true;
                 OpTimer 1 accept_all true]) as H.
  cbv zeta in H.
  assert (E : counter (fst (run [OpFetch "/events";
                                 OpTimer 1 accept_all true;
                                 OpTimer 1 accept_all true]
                             (constructor (Some (Number_of_N 7)))))
              = Some (Number_of_N 9)) by (vm_compute; reflexivity).
  rewrite E in H. destruct H as (_ & _ & H).
  split; [exact E | exact (H eq_refl)].
Defined.
(** ** The idle session *)

Lemma idle_step op w :
  Inv w -> clients w = [] -> is_attach op = false ->
  snd (step op w) = []
  /\ clients (fst (step op w)) = []
  /\ counter (fst (step op w)) = counter w
  /\ storage (fst (step op w)) = storage w.
Proof.
  intros HI Hcl Hop. destruct op as [path|x|i accept ok].
  - cbn in Hop. apply String.eqb_neq in Hop. cbn [step outcome fst snd].
    now destruct (fetch_other_path path w Hop) as [-> | ->].
  - cbn [step]. destruct (existsb _ _); [|easy].
    destruct w as [c cl h s ts nt nc ls]. cbn in Hcl. subst cl.
    assert (h = None) by (destruct HI; cbn in *; now apply inv_running0).
    subst h. unfold set_listeners.
    cbn [counter clients intervalId storage timers next_timer next_client
         listeners].
    now rewrite on_abort_eq.
  - cbn [step]. destruct HI. rewrite inv_timers0.
    destruct inv_running0 as [Hr _]. now rewrite (Hr Hcl).
Qed.

Lemma idle_run ops : forall w,
  Inv w -> clients w = [] ->
  forallb (fun op => negb (is_attach op)) ops = true ->
  snd (run ops w) = []
  /\ clients (fst (run ops w)) = []
  /\ counter (fst (run ops w)) = counter w
  /\ storage (fst (run ops w)) = storage w.
Proof.
  induction ops as [|op ops IH]; intros w HI Hcl Hops; [easy|].
  cbn [forallb] in Hops. apply andb_true_iff in Hops as [Hop Hops].
  apply negb_true_iff in Hop.
  cbn [run]. pose proof (Inv_step op w HI) as HI1.
  destruct (idle_step op w HI Hcl Hop) as (Ht & Hc & Hn & Hs).
  destruct (step op w) as [w1 t1]. cbn [fst snd] in *.
  destruct (IH w1 HI1 Hc Hops) as (Ht2 & Hc2 & Hn2 & Hs2).
  destruct (run ops w1) as [w2 t2]. cbn [fst snd] in *. subst t1 t2.
  repeat split; congruence.
Qed.

(** X8. While the subscriber set is empty the session is inert: until the
    next request on [/events], no operation (page or unknown requests, late
    aborts, timer events) makes any host call, so nothing is put or
    enqueued, and the counter and the store stay as they are. *)
Theorem idle_session_is_inert (stored : option Number) (ops idle : list Op) :
  let w := fst (run ops (constructor stored)) in
  clients w = [] ->
  forallb (fun op => negb (is_attach op)) idle = true ->
  snd (run idle w) = []
  /\ clients (fst (run idle w)) = []
  /\ counter (fst (run idle w)) = counter w
  /\ storage (fst (run idle w)) = storage w.
Proof.
  intros w Hcl Hidle. apply idle_run; [apply Inv_reachable | assumption ..].
Qed.

(** The sole subscriber aborts after one tick; later timer events and page
    requests do nothing. *)
Lemma idle_session_is_inert_witness :
  let w := fst (run [OpFetch "/events"; OpTimer 1 accept_all true;
                     OpAbort 0] (constructor None)) in
  let idle := [OpTimer 1 accept_all true; OpFetch "/";
               OpAbort 0; OpTimer 1 accept_all true] in
  snd (run idle w) = []
  /\ clients (fst (run idle w)) = []
  /\ counter (fst (run idle w)) = Some (Number_of_N 1)
  /\ storage (fst (run idle w)) = Some (Number_of_N 1).
Proof.
  exact (idle_session_is_inert None
           [OpFetch "/events"; OpTimer 1 accept_all true; OpAbort 0]
           [OpTimer 1 accept_all true; OpFetch "/"; OpAbort 0;
            OpTimer 1 accept_all true] eq_refl eq_refl).
Defined.

(** ** A new activation *)

(** X9. Whatever an activation did, a new activation over the store it left
    behind loads, at its first request on [/events], the value that store
    reflects.  That value is never above the counter the old activation had
    in memory, and it is exactly that counter when none of the old
    activation's puts was rejected: no completed tick is lost by a restart.
    If the old activation never loaded the counter, the new one loads the
    value the store reflected from the start. *)
Theorem restart_resumes_counter (stored : option Number) (ops : list Op) :
  let w := fst (run ops (constructor stored)) in
  let w' := snd (fst (fetch "/events" (constructor (storage w)))) in
  counter w' = Some (durable w)
  /\ match counter w with
     | Some n =>
         (value (durable w) <= value n)%N
         /\ (puts_ok ops = true -> counter w' = Some n)
     | None => counter w' = Some (or_zero stored)
     end.
Proof.
  intros w w'.
  pose proof (Inv_reachable stored ops) as HI. fold w in HI.
  assert (H : counter w' = Some (durable w)).
  { subst w'.
    destruct (fetch_events_facts (constructor (storage w)))
      as (_ & _ & _ & Hc & _).
    exact Hc. }
  split; [exact H|].
  destruct (counter w) as [n|] eqn:Ec.
  - split; [now apply (inv_durable w HI)|].
    intros Hok. rewrite H. f_equal.
    now apply (synced_reachable stored ops Hok).
  - rewrite H. unfold durable.
    destruct (run_unloaded ops (constructor stored) (Inv_constructor _) Ec)
      as [_ Hs].
    fold w in Hs. now rewrite Hs.
Qed.

(** Two ticks from a fresh session, then a restart: the new activation
    resumes at 2. *)
Lemma restart_resumes_counter_witness :
  let ops := [OpFetch "/events"; OpTimer 1 accept_all true;
              OpTimer 1 accept_all true] in
  let w := fst (run ops (constructor None)) in
  counter w = Some (Number_of_N 2)
  /\ counter (snd (fst (fetch "/events" (constructor (storage w)))))
     = Some (Number_of_N 2).
Proof.
  pose proof (restart_resumes_counter None
                [OpFetch "/events"; OpTimer 1 accept_all true;
                 OpTimer 1 accept_all true]) as H.
  cbv zeta in H.
  assert (E : counter (fst (run [OpFetch "/events";
                                 OpTimer 1 accept_all true;
                                 OpTimer 1 accept_all true]
                             (constructor None)))
              = Some (Number_of_N 2)) by (vm_compute; reflexivity).
  rewrite E in H. destruct H as (_ & _ & H).
  split; [exact E | exact (H eq_refl)].
Defined.

(** The same with the second put rejected: the old activation had counted
    to 2, the new one resumes at 1. *)
Lemma restart_after_rejected_put :
  let ops := [OpFetch "/events"; OpTimer 1 accept_all true;
              OpTimer 1 accept_all false] in
  let w := fst (run ops (constructor None)) in
  counter w = Some (Number_of_N 2)
  /\ counter (snd (fst (fetch "/events" (constructor (storage w)))))
     = Some (Number_of_N 1).
Proof. cbv zeta. split; vm_compute; reflexivity. Qed.
(** ** Consecutive ticks *)

Lemma Number_succ_of_N (n : Number) :
  (value n < LIMIT)%N -> Number_succ n = Number_of_N (value n + 1).
Proof.
  intros H. apply Number_ext.
  rewrite (value_succ_below n H), value_of_N; [reflexivity | lia].
Qed.

Lemma tick_keeps_subscriber i accept ok w c n :
  Inv w -> intervalId w = Some i -> In c (clients w) -> accept c = true ->
  counter w = Some n ->
  delivered c (snd (step (OpTimer i accept ok) w))
  = (if ok then [sse_record (Number_succ n)] else [])
  /\ intervalId (fst (step (OpTimer i accept ok) w)) = Some i
  /\ In c (clients (fst (step (OpTimer i accept ok) w)))
  /\ counter (fst (step (OpTimer i accept ok) w)) = Some (Number_succ n).
Proof.
  intros HI Hi Hc Ha Hn. cbn [step].
  assert (Ht : timers w = [i]) by (destruct HI; now rewrite inv_timers0, Hi).
  rewrite Ht. cbn [existsb]. rewrite Nat.eqb_refl. cbn [orb].
  assert (Hnd : NoDup (clients w)) by now destruct HI.
  destruct w as [c0 cl h s ts nt nc ls]. cbn in Hi, Hc, Hn, Hnd. subst c0 h.
  destruct ok; [|now rewrite interval_callback_rejected].
  rewrite interval_callback_eq. cbv zeta. cbn [to_number].
  assert (Hin : In c (filter accept cl)) by (apply filter_In; now split).
  destruct (filter accept cl) as [|a l] eqn:E; [contradiction|].
  cbn [is_empty outcome fst snd intervalId clients counter delivered].
  rewrite delivered_broadcast by exact Hnd.
  assert (Hex : existsb (Nat.eqb c) cl = true).
  { apply existsb_exists. exists c. now rewrite Nat.eqb_refl. }
  rewrite Hex, Ha. now repeat split.
Qed.

Lemma consecutive_ticks i c firings : forall w n,
  Inv w -> intervalId w = Some i -> In c (clients w) -> counter w = Some n ->
  Forall (fun f : (client -> bool) * bool => fst f c = true) firings ->
  (value n + N.of_nat (List.length firings) <= LIMIT)%N ->
  delivered c (snd (run (map (firing i) firings) w))
  = firing_records (value n) (map snd firings).
Proof.
  induction firings as [|[a ok] firings IH]; intros w n HI Hi Hc Hn HF Hlim;
    [reflexivity|].
  inversion HF as [|? ? Ha HF']; subst. cbn [fst] in Ha.
  cbn [map run List.length firing_records] in Hlim |- *.
  change (firing i (a, ok)) with (OpTimer i a ok).
  change (snd (a, ok)) with ok.
  pose proof (Inv_step (OpTimer i a ok) w HI) as HI1.
  destruct (tick_keeps_subscriber i a ok w c n HI Hi Hc Ha Hn)
    as (Hd & Hi1 & Hc1 & Hn1).
  assert (Hlt : (value n < LIMIT)%N) by lia.
  destruct (step (OpTimer i a ok) w) as [w1 t1]. cbn [fst snd] in *.
  specialize (IH w1 (Number_succ n) HI1 Hi1 Hc1 Hn1 HF').
  rewrite (value_succ_below n Hlt) in IH.
  destruct (run (map (firing i) firings) w1) as [w2 t2]. cbn [snd] in *.
  rewrite delivered_app, Hd, IH by lia.
  now rewrite (Number_succ_of_N n Hlt).
Qed.

Lemma firing_records_all_ok k : forall n,
  firing_records n (repeat true k)
  = map (fun j => sse_record (Number_of_N (n + N.of_nat j))) (seq 1 k).
Proof.
  induction k as [|k IH]; intros n; [reflexivity|].
  cbn [repeat firing_records seq map app]. rewrite IH.
  f_equal; try reflexivity.
  rewrite <- (seq_shift k 1), map_map. apply map_ext. intros j.
  do 2 f_equal. rewrite Nat2N.inj_succ. lia.
Qed.

(** X10. A subscriber that stays in the set and whose channel accepts
    receives, over any number [k] of consecutive firings of the timer that
    keep the counter within 2^53, exactly one record for each firing whose
    put completes and none for a firing whose put is rejected; the record
    of the [j]-th firing carries the value [n + j], where [n] is the counter
    at the start.  So when every put completes the records carry the
    consecutive values [n + 1], ..., [n + k], whether or not other
    subscribers fail and are removed meanwhile. *)
Theorem consecutive_ticks_deliver_consecutive_values (stored : option Number)
    (ops : list Op) (i : timer_id) (c : client) (n : Number)
    (firings : list ((client -> bool) * bool)) :
  let w := fst (run ops (constructor stored)) in
  intervalId w = Some i ->
  In c (clients w) ->
  counter w = Some n ->
  Forall (fun f : (client -> bool) * bool => fst f c = true) firings ->
  (value n + N.of_nat (List.length firings) <= LIMIT)%N ->
  delivered c (snd (run (map (firing i) firings) w))
  = firing_records (value n) (map snd firings)
  /\ (map snd firings = repeat true (List.length firings) ->
      delivered c (snd (run (map (firing i) firings) w))
      = map (fun j => sse_record (Number_of_N (value n + N.of_nat j)))
          (seq 1 (List.length firings))).
Proof.
  intros w Hi Hc Hn HF Hlim.
  assert (H : delivered c (snd (run (map (firing i) firings) w))
              = firing_records (value n) (map snd firings)).
  { apply consecutive_ticks; try assumption. apply Inv_reachable. }
  split; [exact H|]. intros Hok. rewrite H, Hok.
  apply firing_records_all_ok.
Qed.

(** Scenario: fresh session, two subscribers; the second one's channel
    breaks at the second tick; the first still gets 1, 2, 3. *)
Lemma consecutive_ticks_deliver_consecutive_values_witness :
  let w := fst (run [OpFetch "/events";
                     OpFetch "/events"] (constructor None)) in
  delivered 0 (snd (run (map (firing 1)
                           [(accept_all, true); ((fun c => c =? 0), true);
                            (accept_all, true)]) w))
  = [sse_record (Number_of_N 1); sse_record (Number_of_N 2);
     sse_record (Number_of_N 3)].
Proof.
  apply (consecutive_ticks_deliver_consecutive_values None
           [OpFetch "/events"; OpFetch "/events"]
           1 0 Number_zero
           [(accept_all, true); ((fun c => c =? 0), true);
            (accept_all, true)]).
  - reflexivity.
  - simpl. auto.
  - reflexivity.
  - repeat constructor.
  - vm_compute. discriminate.
  - reflexivity.
Defined.

(** The same firings with the second put rejected: the subscriber gets 1
    and 3. *)
Lemma rejected_put_skips_record :
  let w := fst (run [OpFetch "/events";
                     OpFetch "/events"] (constructor None)) in
  delivered 0 (snd (run (map (firing 1)
                           [(accept_all, true); (accept_all, false);
                            (accept_all, true)]) w))
  = [sse_record (Number_of_N 1); sse_record (Number_of_N 3)].
Proof. reflexivity. Qed.

(** ** Order of the broadcast *)

Lemma sorted_snoc (l : list nat) (x : nat) :
  StronglySorted lt l -> Forall (fun c => c < x) l ->
  StronglySorted lt (l ++ [x]).
Proof.
  induction 1 as [|a l Hs IH Ha]; intros HF; simpl.
  - repeat constructor.
  - inversion HF; subst. constructor; [now apply IH|].
    apply Forall_app. split; [exact Ha | now repeat constructor].
Qed.

Lemma sorted_filter (p : nat -> bool) (l : list nat) :
  StronglySorted lt l -> StronglySorted lt (filter p l).
Proof.
  induction 1 as [|a l Hs IH Ha]; simpl; [constructor|].
  destruct (p a); [|exact IH]. constructor; [exact IH|].
  apply Forall_forall. intros y Hy. apply filter_In in Hy as [Hy _].
  rewrite Forall_forall in Ha. now apply Ha.
Qed.

Lemma sorted_step op w :
  Inv w -> StronglySorted lt (clients w) ->
  StronglySorted lt (clients (fst (step op w))).
Proof.
  intros HI Hs. rewrite (clients_step op w HI).
  destruct op as [path|x|i accept ok].
  - destruct (path =? "/events")%string; [|exact Hs].
    apply sorted_snoc; [exact Hs | now destruct HI].
  - destruct (existsb _ _); [now apply sorted_filter | exact Hs].
  - destruct (existsb _ _ && ok); [now apply sorted_filter | exact Hs].
Qed.

Lemma sorted_run ops : forall w,
  Inv w -> StronglySorted lt (clients w) ->
  StronglySorted lt (clients (fst (run ops w))).
Proof.
  induction ops as [|op ops IH]; intros w HI Hs; [exact Hs|].
  cbn [run]. pose proof (Inv_step op w HI) as HI1.
  pose proof (sorted_step op w HI Hs) as Hs1.
  destruct (step op w) as [w1 t1]. cbn [fst] in *.
  specialize (IH w1 HI1 Hs1). now destruct (run ops w1).
Qed.

Lemma enqueue_targets_app t1 t2 :
  enqueue_targets (t1 ++ t2) = enqueue_targets t1 ++ enqueue_targets t2.
Proof.
  induction t1 as [|e t1 IH]; [reflexivity|].
  destruct e; simpl; now rewrite IH.
Qed.

Lemma enqueue_targets_quiet t : quiet t = true -> enqueue_targets t = [].
Proof.
  induction t as [|e t IH]; [reflexivity|]. simpl. intros H.
  apply andb_true_iff in H as [He Ht].
  destruct e; try discriminate; now apply IH.
Qed.

Lemma enqueue_targets_broadcast accept data cs :
  enqueue_targets (broadcast_trace accept data cs) = cs.
Proof.
  induction cs as [|x cs IH]; [reflexivity|].
  rewrite broadcast_trace_cons. cbn [enqueue_targets].
  rewrite enqueue_targets_app, IH. now destruct (accept x).
Qed.

(** X11. The subscribers are kept in the order in which they attached
    (client objects are numbered as they are created), and a tick calls
    [enqueue] once on each of them in that order, failures notwithstanding;
    a tick whose put is rejected calls [enqueue] on none. *)
Theorem tick_serves_in_attach_order (stored : option Number) (ops : list Op)
    (accept : client -> bool) :
  let w := fst (run ops (constructor stored)) in
  StronglySorted lt (clients w)
  /\ enqueue_targets (snd (interval_callback accept true w)) = clients w
  /\ enqueue_targets (snd (interval_callback accept false w)) = [].
Proof.
  intros w. split; [|split].
  - apply sorted_run; [apply Inv_constructor | constructor].
  - destruct (tick_trace accept w) as (tail & Ht & Hq & _).
    rewrite Ht. cbn [enqueue_targets].
    now rewrite enqueue_targets_app, enqueue_targets_broadcast,
      (enqueue_targets_quiet _ Hq), app_nil_r.
  - now destruct (tick_rejected accept w) as (_ & -> & _).
Qed.
(** ** The abort handler *)

Lemma Inv_on_abort x w : Inv w -> Inv (snd (fst (on_abort x w))).
Proof.
  intros HI. destruct w as [c cl h s ts nt nc ls]. rewrite on_abort_eq.
  destruct (Set_delete x cl) as [|a l] eqn:E; cbn [is_empty].
  - now apply (Inv_stop c cl h s ts nt nc).
  - rewrite <- E. apply (Inv_shrink (fun y => negb (y =? x))); [exact HI|].
    change (Set_delete x cl <> []). now rewrite E.
Qed.

Lemma on_abort_clients x w :
  clients (snd (fst (on_abort x w))) = Set_delete x (clients w).
Proof.
  destruct w as [c cl h s ts nt nc ls]. rewrite on_abort_eq.
  cbn [clients]. destruct (Set_delete x cl) eqn:E; cbn [is_empty].
  - match goal with |- context [stopCounting ?w] =>
      destruct (stopCounting_facts w) as (_ & _ & _ & _ & Hcl & _) end.
    now rewrite Hcl.
  - reflexivity.
Qed.

Lemma on_abort_absent x w :
  Inv w -> ~ In x (clients w) -> on_abort x w = (Normal tt, w, []).
Proof.
  intros HI Hx. destruct w as [c cl h s ts nt nc ls]. rewrite on_abort_eq.
  cbn in Hx. rewrite (Set_delete_absent x cl Hx).
  destruct cl as [|a l]; cbn [is_empty]; [|reflexivity].
  assert (h = None) by (destruct HI; cbn in *; now apply inv_running0).
  now subst h.
Qed.

(** X12. The abort handler is idempotent: run for a client that is not in
    the set (already removed by a failed delivery, or aborted before) it
    changes nothing and makes no host call, and so does a second run after
    any first one. *)
Theorem abort_handler_idempotent (stored : option Number) (ops : list Op)
    (c : client) :
  let w := fst (run ops (constructor stored)) in
  (~ In c (clients w) -> on_abort c w = (Normal tt, w, []))
  /\ (let w1 := snd (fst (on_abort c w)) in
      ~ In c (clients w1) /\ on_abort c w1 = (Normal tt, w1, [])).
Proof.
  intros w. pose proof (Inv_reachable stored ops) as HI. fold w in HI.
  split; [now apply on_abort_absent|]. cbv zeta.
  assert (Hn : ~ In c (clients (snd (fst (on_abort c w))))).
  { rewrite on_abort_clients. unfold Set_delete. intros H.
    apply filter_In in H as [_ H]. now rewrite Nat.eqb_refl in H. }
  split; [exact Hn|]. apply on_abort_absent; [now apply Inv_on_abort|exact Hn].
Qed.

(** The tick has removed the only subscriber; its late abort does nothing. *)
Lemma abort_handler_idempotent_witness :
  let w := fst (run [OpFetch "/events";
                     OpTimer 1 (fun _ => false) true] (constructor None)) in
  on_abort 0 w = (Normal tt, w, []).
Proof.
  destruct (abort_handler_idempotent None
              [OpFetch "/events"; OpTimer 1 (fun _ => false) true] 0)
    as [H _].
  apply H. simpl. auto.
Defined.

(** ** The wire record *)

Lemma uint_digits d :
  Forall (fun c => is_digit c = true) (chars (NilEmpty.string_of_uint d)).
Proof. induction d; simpl; constructor; easy. Qed.

Lemma to_uint_nonnil (n : N) : N.to_uint n <> Decimal.Nil.
Proof.
  destruct n as [|p]; [discriminate|].
  apply DecimalPos.Unsigned.to_uint_nonnil.
Qed.

Lemma number_to_string_digits n :
  number_to_string n <> ""
  /\ Forall (fun c => is_digit c = true) (chars (number_to_string n)).
Proof.
  unfold number_to_string.
  pose proof (to_uint_nonnil (value n)) as Hn.
  split.
  - destruct (N.to_uint (value n)); [contradiction | discriminate ..].
  - destruct (N.to_uint (value n)) eqn:E; [contradiction | rewrite <- E ..];
      unfold NilZero.string_of_uint; rewrite E; rewrite <- E;
      apply uint_digits.
Qed.

(** A normalised decimal that starts with the digit 0 is 0. *)
Lemma unorm_leading_zero d u : Decimal.unorm d = Decimal.D0 u -> u = Decimal.Nil.
Proof.
  unfold Decimal.unorm. intros H.
  destruct (Decimal.nzhead d) eqn:E; try discriminate.
  - now injection H as <-.
  - injection H as ->.
    pose proof (DecimalFacts.nzhead_involutive d) as Hi. rewrite E in Hi.
    cbn [Decimal.nzhead] in Hi.
    pose proof (DecimalFacts.nb_digits_nzhead u) as Hl. rewrite Hi in Hl.
    cbn [Decimal.nb_digits] in Hl. lia.
Qed.

(** The digits have no leading zero: they are [0] itself, or start with
    another digit. *)
Lemma number_to_string_canonical n :
  number_to_string n = "0"
  \/ exists c rest, number_to_string n = String c rest /\ c <> "0"%char.
Proof.
  unfold number_to_string.
  assert (Hu : Decimal.unorm (N.to_uint (value n)) = N.to_uint (value n)).
  { rewrite <- DecimalN.Unsigned.to_of.
    now rewrite DecimalN.Unsigned.of_to. }
  destruct (N.to_uint (value n)) as [|u|u|u|u|u|u|u|u|u|u] eqn:E;
    try (right; eexists; eexists; split; [reflexivity | discriminate]).
  left. apply unorm_leading_zero in Hu. now subst u.
Qed.

(** X13. The counter is a whole number of at most 2^53, below the 10^21
    from which a template literal switches to exponent notation.  The bytes
    enqueued for the counter value [n] are the six bytes of [data: ], then a
    non-empty run of decimal digits without a leading zero, then two line
    feeds: one single-line event per record.  The digits read back as [n],
    so records of different values differ. *)
Theorem sse_record_format (n : Number) :
  (value n < 10 ^ 21)%N
  /\ exists digits,
       sse_record n
       = [Byte.x64; Byte.x61; Byte.x74; Byte.x61; Byte.x3a; Byte.x20]
           ++ list_byte_of_string digits ++ [Byte.x0a; Byte.x0a]
       /\ digits <> ""
       /\ Forall (fun c => is_digit c = true) (chars digits)
       /\ (digits = "0"
           \/ exists c rest, digits = String c rest /\ c <> "0"%char)
       /\ option_map N.of_uint (NilZero.uint_of_string digits)
          = Some (value n)
       /\ (forall m, sse_record m = sse_record n -> m = n).
Proof.
  split.
  { pose proof (value_le_LIMIT n) as H. unfold LIMIT in H.
    eapply N.le_lt_trans; [exact H | reflexivity]. }
  exists (number_to_string n).
  destruct (number_to_string_digits n) as [Hne Hd].
  split; [apply sse_record_bytes|]. split; [exact Hne|]. split; [exact Hd|].
  split; [apply number_to_string_canonical|]. split.
  - rewrite number_to_string_reads_back. cbn [option_map].
    now rewrite DecimalN.Unsigned.of_to.
  - intros m. apply sse_record_inj.
Qed.

(** The records of 43 and of 2^53, byte by byte. *)
Lemma sse_record_format_witness :
  sse_record (Number_of_N 43)
  = [Byte.x64; Byte.x61; Byte.x74; Byte.x61; Byte.x3a; Byte.x20;
     Byte.x34; Byte.x33; Byte.x0a; Byte.x0a]
  /\ sse_record (Number_of_N LIMIT)
     = list_byte_of_string ("data: 9007199254740992" ++ LF ++ LF)
  /\ (sse_record (Number_of_N 43) = sse_record (Number_of_N 43) ->
      Number_of_N 43 = Number_of_N 43).
Proof.
  destruct (sse_record_format (Number_of_N 43))
    as (_ & d & _ & _ & _ & _ & _ & H).
  split; [reflexivity|]. split; [reflexivity | exact (H (Number_of_N 43))].
Defined.

(** ** Attach and abort *)



